(** * A mutation-based fuzzer: model of [system/mutation_fuzzer.py]

    The development embeds the mutation operators and the
    [MyMutationFuzzer] engine of [system/mutation_fuzzer.py] and states the
    properties of its specification about them.

    - Python strings are sequences of Unicode code points ([str]).
    - The process-wide [random] module is an explicit tape of raw draws
      ([rng]); each library call reads one cell of the tape.
    - Python exceptions are the [Raise] results of an error monad.
    - The global names a function looks up when it runs are read from the
      module's namespace ([globals]); an unbound name raises [NameError].
    - Python list objects live in a store ([heap]), so that two attributes
      bound to the same list are seen to alias. *)

From Stdlib Require Import ZArith NArith Lia Bool Ascii String.
From stdpp Require Import base numbers list functions.

Local Open Scope Z_scope.

(** ** Exceptions and results *)

(** [IndexError], [ValueError] and [NameError] are the exceptions the code
    can meet.  [InvalidConfiguration] is the condition the specification
    names for a rejected construction; nothing in the file raises it. *)
Inductive exn : Type :=
  | IndexError
  | ValueError
  | NameError
  | InvalidConfiguration.

Inductive result (A : Type) : Type :=
  | Ok (a : A)
  | Raise (e : exn).

Arguments Ok {A} a.
Arguments Raise {A} e.

(** ** The random source *)

(** The generator is a tape of raw draws and a read head. *)
Record rng : Type := MkRng { tape : nat -> nat; head : nat }.

Definition advance (g : rng) : rng :=
  {| tape := tape g; head := S (head g) |}.

Definition peek (g : rng) : nat := tape g (head g).

(** A tape that plays the listed draws and then zeros. *)
Definition rng_of (draws : list nat) : rng :=
  {| tape := fun n => nth n draws 0%nat; head := 0 |}.

(** Computations that draw random values and may raise. *)
Definition M (A : Type) : Type := rng -> result (A * rng).

Definition ret {A} (a : A) : M A := fun g => Ok (a, g).

Definition bind {A B} (m : M A) (k : A -> M B) : M B :=
  fun g => match m g with
           | Ok (a, g') => k a g'
           | Raise e => Raise e
           end.

Definition raise {A} (e : exn) : M A := fun _ => Raise e.

Definition lift {A} (r : result A) : M A :=
  fun g => match r with Ok a => Ok (a, g) | Raise e => Raise e end.

Declare Scope fuzz_scope.
Delimit Scope fuzz_scope with fuzz.
Notation "x <- m ;; k" := (bind m (fun x => k))
  (at level 100, m at next level, right associativity) : fuzz_scope.
Local Open Scope fuzz_scope.

(** [random._randbelow(n)], for [n > 0]: a value in [[0, n)]. *)
Definition randbelow (n : nat) : M nat :=
  fun g => Ok ((peek g mod n)%nat, advance g).

(** [random.randrange(start, stop)]. *)
Definition randrange (start stop : Z) : M Z :=
  if 0 <? stop - start
  then r <- randbelow (Z.to_nat (stop - start)) ;; ret (start + Z.of_nat r)
  else raise ValueError.

(** [random.randint(a, b)]: both ends included. *)
Definition randint (a b : Z) : M Z := randrange a (b + 1).

(** [random.choice(seq)]. *)
Definition choice {A} (seq : list A) : M A :=
  match seq with
  | [] => raise IndexError
  | _ :: _ =>
      i <- randbelow (length seq) ;;
      match seq !! i with
      | Some x => ret x
      | None => raise IndexError
      end
  end.

(** [random.random() < 0.5]: the float is only compared with one half. *)
Definition random_lt_half : M bool :=
  fun g => Ok (Nat.even (peek g), advance g).

(** ** Lists as Python sequences *)

(** [l[i]] for a non-negative index. *)
Definition getitem {A} (l : list A) (i : nat) : result A :=
  match l !! i with
  | Some x => Ok x
  | None => Raise IndexError
  end.

(** [l[i] = x] for a non-negative index. *)
Definition setitem {A} (l : list A) (i : nat) (x : A) : result (list A) :=
  if decide (i < length l)%nat then Ok (<[i := x]> l) else Raise IndexError.

(** [x[i], x[j] = x[j], x[i]] *)
Definition swap_items {A} (x : list A) (i j : nat) : result (list A) :=
  match getitem x j with
  | Raise e => Raise e
  | Ok xj =>
      match getitem x i with
      | Raise e => Raise e
      | Ok xi =>
          match setitem x i xj with
          | Raise e => Raise e
          | Ok x' => setitem x' j xi
          end
      end
  end.

(** The loop of [random.shuffle(x)]:
    [for i in reversed(range(1, len(x))): j = randbelow(i + 1); swap]. *)
Fixpoint shuffle_from {A} (i : nat) (x : list A) : M (list A) :=
  match i with
  | O => ret x
  | S i' =>
      j <- randbelow (S i) ;;
      x' <- lift (swap_items x i j) ;;
      shuffle_from i' x'
  end.

Definition shuffle {A} (x : list A) : M (list A) :=
  shuffle_from (length x - 1) x.

(** ** Strings *)

(** A character is its code point. *)
Definition char : Type := N.
Definition str : Type := list char.

Definition max_code_point : Z := 1114111.

Definition ord (c : char) : Z := Z.of_N c.

(** [chr(i)] raises [ValueError] outside [range(0x110000)]. *)
Definition chr (i : Z) : result char :=
  if (0 <=? i) && (i <=? max_code_point) then Ok (Z.to_N i) else Raise ValueError.

Definition wf_char (c : char) : Prop := ord c <= max_code_point.
Definition wf_str (s : str) : Prop := Forall wf_char s.

(** A string literal. *)
Definition py (s : string) : str := map N_of_ascii (list_ascii_of_string s).

Definition len (s : str) : Z := Z.of_nat (length s).

(** ** Character-level mutation operators *)

Definition delete_random_character (s : str) : M str :=
  match s with
  | [] => ret s
  | _ :: _ =>
      pos <- randint 0 (len s - 1) ;;
      ret (take (Z.to_nat pos) s ++ drop (Z.to_nat (pos + 1)) s)
  end.

Definition insert_random_character (s : str) : M str :=
  pos <- randint 0 (len s) ;;
  code <- randrange 32 127 ;;
  random_character <- lift (chr code) ;;
  ret (take (Z.to_nat pos) s ++ [random_character] ++ drop (Z.to_nat pos) s).

Definition flip_random_character (s : str) : M str :=
  match s with
  | [] => ret s
  | _ :: _ =>
      pos <- randint 0 (len s - 1) ;;
      c <- lift (getitem s (Z.to_nat pos)) ;;
      k <- randint 0 6 ;;
      let bit := Z.shiftl 1 k in
      new_c <- lift (chr (Z.lxor (ord c) bit)) ;;
      ret (take (Z.to_nat pos) s ++ [new_c] ++ drop (Z.to_nat (pos + 1)) s)
  end.

(** ** The string methods the SQL-aware operators call *)

(** [str.isspace], [str.upper], [str.lower], [str.isupper], [str.islower]
    and the regular-expression class [\d] depend on the Unicode character
    database; the operators are defined over any such tables. *)
Class StrOps : Type := {
  c_isspace : char -> bool;
  c_isdigit : char -> bool;
  upper : str -> str;
  lower : str -> str;
  isupper : str -> bool;
  islower : str -> bool
}.

(** The tables restricted to ASCII: they are Python's on code points below
    128 and treat every other character as caseless, non-blank and
    non-numeric. *)
Module Ascii.

Definition is_space (c : char) : bool :=
  ((9 <=? c) && (c <=? 13) || (28 <=? c) && (c <=? 32))%N.

Definition is_digit (c : char) : bool := ((48 <=? c) && (c <=? 57))%N.

Definition is_upper (c : char) : bool := ((65 <=? c) && (c <=? 90))%N.

Definition is_lower (c : char) : bool := ((97 <=? c) && (c <=? 122))%N.

Definition to_upper (c : char) : char := if is_lower c then (c - 32)%N else c.

Definition to_lower (c : char) : char := if is_upper c then (c + 32)%N else c.

Definition ops : StrOps := {|
  c_isspace := is_space;
  c_isdigit := is_digit;
  upper := map to_upper;
  lower := map to_lower;
  isupper := fun s => existsb is_upper s && negb (existsb is_lower s);
  islower := fun s => existsb is_lower s && negb (existsb is_upper s)
|}.

End Ascii.

Definition quote : char := 39%N.

Section Tokens.

Context {ops : StrOps}.

(** [t.isspace()] *)
Definition isspace (t : str) : bool :=
  match t with
  | [] => false
  | _ :: _ => forallb c_isspace t
  end.

(** Whether [re.fullmatch(r"\d+", t)] finds a match; the operator reads
    the name [re] before it calls this. *)
Definition fullmatch_digits (t : str) : bool :=
  match t with
  | [] => false
  | _ :: _ => forallb c_isdigit t
  end.

(** [t.startswith("'")] and [t.endswith("'")] *)
Definition startswith_quote (t : str) : bool :=
  match t with
  | c :: _ => N.eqb c quote
  | [] => false
  end.

Definition endswith_quote (t : str) : bool :=
  match t !! (length t - 1)%nat with
  | Some c => N.eqb c quote
  | None => false
  end.

(** [t[1:-1]] *)
Definition strip_ends (t : str) : str := drop 1 (take (length t - 1) t).

(** [c in s] for a one-character string [c] *)
Definition contains_char (c : char) (s : str) : bool := existsb (N.eqb c) s.

(** [s.replace(a, b, 1)] for one-character strings [a] and [b] *)
Fixpoint replace_first (a b : char) (s : str) : str :=
  match s with
  | [] => []
  | c :: s' => if N.eqb c a then b :: s' else c :: replace_first a b s'
  end.

(** [[i for i,t in enumerate(ts) if p(t)]], counting from [i] *)
Fixpoint indices_from (p : str -> bool) (i : nat) (ts : list str) : list nat :=
  match ts with
  | [] => []
  | t :: ts' =>
      if p t then i :: indices_from p (S i) ts' else indices_from p (S i) ts'
  end.

Definition indices_where (p : str -> bool) (ts : list str) : list nat :=
  indices_from p 0 ts.

(** [ts.insert(pos, x)] for a non-negative [pos] *)
Definition list_insert_at (pos : nat) (x : str) (ts : list str) : list str :=
  take pos ts ++ x :: drop pos ts.

(** [[ts[i] for i in ks]] *)
Fixpoint getitems (ts : list str) (ks : list nat) : M (list str) :=
  match ks with
  | [] => ret []
  | k :: ks' =>
      x <- lift (getitem ts k) ;;
      xs <- getitems ts ks' ;;
      ret (x :: xs)
  end.

(** [for j,k in enumerate(ks): ts[k] = segment[j]], counting from [j] *)
Fixpoint assign_from (segment : list str) (j : nat) (ks : list nat)
    (ts : list str) : M (list str) :=
  match ks with
  | [] => ret ts
  | k :: ks' =>
      x <- lift (getitem segment j) ;;
      ts' <- lift (setitem ts k x) ;;
      assign_from segment (S j) ks' ts'
  end.

Definition boundary_values : list str :=
  [py "0"; py "-1"; py "1"; py "2147483647"; py "-2147483648";
   py "9223372036854775807"; py "-9223372036854775808"].

Definition suffixes : list str := [py "_x"; py "__"; py "0"].

(** [t.upper() in kw] *)
Definition is_keyword (kw : list str) (t : str) : bool :=
  bool_decide (upper t ∈ kw).

Definition is_content (t : str) : bool := negb (isspace t).

(** *** The global names of the module

    The token-level operators read four global names when they run:
    [_tok], [_unt], [_SQL_KW] and [re].  A binding is [None] when the name
    is unbound. *)
Record globals : Type := {
  _tok : option (str -> list str);
  _unt : option (list str -> str);
  _SQL_KW : option (list str);
  re : option unit
}.

(** Reading a global name. *)
Definition name {A} (binding : option A) : M A :=
  match binding with
  | Some v => ret v
  | None => raise NameError
  end.

(** The namespace the file builds: it imports [random], names of [typing]
    and [Fuzzer], and defines the six operators and the class.  None of the
    four names is assigned, defined or imported. *)
Definition module_globals : globals :=
  {| _tok := None; _unt := None; _SQL_KW := None; re := None |}.

(** *** Token-level mutation operators *)

Definition replace_sql_token (G : globals) (s : str) : M str :=
  tok <- name (_tok G) ;;
  let ts := tok s in
  let idx := indices_where is_content ts in
  match idx with
  | [] => ret s
  | _ :: _ =>
      i <- choice idx ;;
      t <- lift (getitem ts i) ;;
      kw <- name (_SQL_KW G) ;;
      ts' <-
        (if is_keyword kw t then
           kw' <- name (_SQL_KW G) ;;
           alt <- choice kw' ;;
           lift (setitem ts i (if isupper t then alt else lower alt))
         else
           re_module <- name (re G) ;;
           if fullmatch_digits t then
             v <- choice boundary_values ;;
             lift (setitem ts i v)
           else if startswith_quote t && endswith_quote t then
             let inner := strip_ends t in
             b <- random_lt_half ;;
             inner' <-
               (if b : bool then
                  n <- randint 1 30 ;;
                  ret (inner ++ replicate (Z.to_nat n) 65%N)
                else if contains_char 97%N inner then
                  ret (replace_first 97%N 64%N inner)
                else ret (inner ++ py "!")) ;;
             lift (setitem ts i (py "'" ++ inner' ++ py "'"))
           else
             b <- random_lt_half ;;
             if b : bool then
               suffix <- choice suffixes ;;
               lift (setitem ts i (t ++ suffix))
             else
               lift (setitem ts i (if islower t then upper t else lower t))) ;;
      unt <- name (_unt G) ;;
      ret (unt ts')
  end.

(** [[i for i,t in enumerate(ts) if not t.isspace() and t.upper() in _SQL_KW]],
    counting from [i]: [_SQL_KW] is read for every token that is not
    whitespace. *)
Fixpoint keyword_indices_from (G : globals) (i : nat) (ts : list str)
    : M (list nat) :=
  match ts with
  | [] => ret []
  | t :: ts' =>
      keep <- (if is_content t then
                 kw <- name (_SQL_KW G) ;;
                 ret (is_keyword kw t)
               else ret false) ;;
      rest <- keyword_indices_from G (S i) ts' ;;
      ret (if keep : bool then i :: rest else rest)
  end.

Definition duplicate_sql_clause (G : globals) (s : str) : M str :=
  tok <- name (_tok G) ;;
  let ts := tok s in
  idx <- keyword_indices_from G 0 ts ;;
  match idx with
  | [] => ret s
  | _ :: _ =>
      i <- choice idx ;;
      t <- lift (getitem ts i) ;;
      insert_pos <- randint 0 (Z.of_nat (length ts)) ;;
      unt <- name (_unt G) ;;
      ret (unt (list_insert_at (Z.to_nat insert_pos) (t ++ py " ") ts))
  end.

Definition shuffle_sql_tokens (G : globals) (s : str) : M str :=
  tok <- name (_tok G) ;;
  let ts := tok s in
  let idx := indices_where is_content ts in
  if (Z.of_nat (length idx) <? 2) then ret s
  else
    start <- randint 0 (Z.of_nat (length idx) - 2) ;;
    end_ <- randint (start + 1) (Z.of_nat (length idx) - 1) ;;
    let segment_idx := drop (Z.to_nat start) (take (Z.to_nat (end_ + 1)) idx) in
    segment <- getitems ts segment_idx ;;
    segment' <- shuffle segment ;;
    ts' <- assign_from segment' 0 segment_idx ts ;;
    unt <- name (_unt G) ;;
    ret (unt ts').

End Tokens.

(** ** The tokenizer *)

Module Tokenizer.

Inductive mode : Type := Idle | InSpace | InWord | InQuote.

Definition flush (cur : str) : list str :=
  match cur with
  | [] => []
  | _ :: _ => [cur]
  end.

Section Scan.

Context {ops : StrOps}.

(** Modelled from the spec: the tokenizer [_tok] is called by the
    operators but is not defined in the file.  The specification has it
    split a string into maximal runs of whitespace and maximal runs of
    non-whitespace, with a quoted literal (from a quote character to the
    next one) kept as a single token even when it contains whitespace.
    [scan] reads the string once: [cur] is the token being built and
    [m] says what kind of token it is.  A literal that is never closed
    runs to the end of the input. *)
Fixpoint scan (m : mode) (cur : str) (s : str) : list str :=
  match s with
  | [] => flush cur
  | c :: s' =>
      match m with
      | InQuote =>
          if N.eqb c quote then (cur ++ [c]) :: scan Idle [] s'
          else scan InQuote (cur ++ [c]) s'
      | _ =>
          if N.eqb c quote then flush cur ++ scan InQuote [c] s'
          else if c_isspace c then
            match m with
            | InSpace => scan InSpace (cur ++ [c]) s'
            | _ => flush cur ++ scan InSpace [c] s'
            end
          else
            match m with
            | InWord => scan InWord (cur ++ [c]) s'
            | _ => flush cur ++ scan InWord [c] s'
            end
      end
  end.

Definition tokenize (s : str) : list str := scan Idle [] s.

End Scan.

(** Modelled from the spec: the reassembly function [_unt] is not defined
    in the file.  The specification has it concatenate the token texts in
    order, adding and removing nothing. *)
Definition untokenize (ts : list str) : str := concat ts.

End Tokenizer.

(** ** The engine *)

(** Python lists are objects: a variable holds a reference to one. *)
Abbreviation loc := nat.
Abbreviation heap := (loc -> list str).

Record MyMutationFuzzer : Type := {
  seed : loc;
  min_mutations : Z;
  max_mutations : Z;
  population : loc;
  seed_index : nat;
  inp : option str
}.

(** [reset]: [self.population = self.seed] binds the attribute to the same
    list object; no list is copied. *)
Definition reset (self : MyMutationFuzzer) : MyMutationFuzzer :=
  {| seed := seed self;
     min_mutations := min_mutations self;
     max_mutations := max_mutations self;
     population := seed self;
     seed_index := 0;
     inp := inp self |}.

(** [__init__(seed, min_mutations=2, max_mutations=10)]: an omitted argument
    is [None] here.  The attributes [reset] assigns hold placeholders until
    it runs. *)
Definition __init__ (seed_arg : loc) (min_arg max_arg : option Z)
    : result MyMutationFuzzer :=
  Ok (reset {| seed := seed_arg;
               min_mutations := default 2 min_arg;
               max_mutations := default 10 max_arg;
               population := seed_arg;
               seed_index := 0;
               inp := None |}).

Definition mutators : list (str -> M str) :=
  [delete_random_character; insert_random_character; flip_random_character].

Definition mutate (inp : str) : M str :=
  mutator <- choice mutators ;;
  mutator inp.

(** [for i in range(n): candidate = body(candidate)] *)
Fixpoint for_range (n : nat) (body : str -> M str) (candidate : str) : M str :=
  match n with
  | O => ret candidate
  | S n' =>
      candidate' <- body candidate ;;
      for_range n' body candidate'
  end.

Definition create_candidate (self : MyMutationFuzzer) (h : heap) : M str :=
  candidate <- choice (h (population self)) ;;
  trials <- randint (min_mutations self) (max_mutations self) ;;
  for_range (Z.to_nat trials) mutate candidate.

(** The engine, the list objects, the standard output and the generator. *)
Record state : Type := {
  self : MyMutationFuzzer;
  store : heap;
  stdout : list str;
  gen : rng
}.

Definition add_seed (c : str) (st : state) : state :=
  let p := population (self st) in
  {| self := self st;
     store := <[p := store st p ++ [c]]> (store st);
     stdout := stdout st ++ [py "new seed has been added to the corpus"];
     gen := gen st |}.

Definition set_inp (f : MyMutationFuzzer) (x : str) (i : nat) : MyMutationFuzzer :=
  {| seed := seed f;
     min_mutations := min_mutations f;
     max_mutations := max_mutations f;
     population := population f;
     seed_index := i;
     inp := Some x |}.

Definition fuzz (st : state) : result (str * state) :=
  let f := self st in
  if decide (seed_index f < length (store st (seed f)))%nat then
    match getitem (store st (seed f)) (seed_index f) with
    | Ok x =>
        Ok (x, {| self := set_inp f x (S (seed_index f));
                  store := store st; stdout := stdout st; gen := gen st |})
    | Raise e => Raise e
    end
  else
    match create_candidate f (store st) (gen st) with
    | Ok (x, g') =>
        Ok (x, {| self := set_inp f x (seed_index f);
                  store := store st; stdout := stdout st; gen := g' |})
    | Raise e => Raise e
    end.

(** The calls a client makes on an engine. *)
Inductive call : Type :=
  | ProduceNext
  | AddSeed (c : str).

Definition step (c : call) (st : state) : result (option str * state) :=
  match c with
  | ProduceNext =>
      match fuzz st with
      | Ok (x, st') => Ok (Some x, st')
      | Raise e => Raise e
      end
  | AddSeed x => Ok (None, add_seed x st)
  end.

Fixpoint run (cs : list call) (st : state) : result (list (option str) * state) :=
  match cs with
  | [] => Ok ([], st)
  | c :: cs' =>
      match step c st with
      | Raise e => Raise e
      | Ok (o, st') =>
          match run cs' st' with
          | Raise e => Raise e
          | Ok (os, st'') => Ok (o :: os, st'')
          end
      end
  end.

(** A caller that holds one list [seeds] at location 0 and constructs the
    engine from it. *)
Definition heap_of (seeds : list str) : heap := fun l =>
  match l with O => seeds | S _ => [] end.

Definition boot (seeds : list str) (min_arg max_arg : option Z) (g : rng)
    : result state :=
  match __init__ 0%nat min_arg max_arg with
  | Ok f => Ok {| self := f; store := heap_of seeds; stdout := []; gen := g |}
  | Raise e => Raise e
  end.

(** ** Vocabulary of the statements *)

(** [applied ms s g s' g']: starting from [s] with generator [g], the
    operators [ms] were drawn one after the other, each with
    [random.choice] from the registry of the three character-level
    operators (a raw draw of residue 0, 1 or 2 modulo 3 gives the deletion,
    the insertion or the flip), each was applied to the output of the one
    before, and the last one returned [s'] and left the generator [g']. *)
Inductive applied : list (str -> M str) -> str -> rng -> str -> rng -> Prop :=
  | applied_nil s g : applied [] s g s g
  | applied_cons m ms s g s1 g2 s' g' :
      [delete_random_character; insert_random_character; flip_random_character]
        !! (peek g mod 3)%nat = Some m ->
      choice mutators g = Ok (m, advance g) ->
      m s (advance g) = Ok (s1, g2) ->
      applied ms s1 g2 s' g' ->
      applied (m :: ms) s g s' g'.

(** [returns m Q]: whatever the generator, [m] raises nothing and returns a
    value that satisfies [Q]. *)
Definition returns {A} (m : M A) (Q : A -> Prop) : Prop :=
  forall g, exists a g', m g = Ok (a, g') /\ Q a.

(** The engine is Seeding while its cursor is below the seed-list length,
    and Mutating afterwards. *)
Definition seeding (st : state) : Prop :=
  (seed_index (self st) < length (store st (seed (self st))))%nat.

Definition seed_list (st : state) : list str := store st (seed (self st)).

Definition population_list (st : state) : list str :=
  store st (population (self st)).

(** An engine over the seed list ["SELECT 1"], with the default bounds and
    the cursor at a given position. *)
Definition engine_at (cursor : nat) : state :=
  {| self := {| seed := 0; min_mutations := 2; max_mutations := 10;
                population := 0; seed_index := cursor; inp := None |};
     store := heap_of [py "SELECT 1"];
     stdout := [];
     gen := rng_of [0; 0; 1; 1; 3; 40]%nat |}.

(** Strings of 7-bit characters. *)
Definition is_ascii (s : str) : Prop := Forall (fun c : char => (c < 128)%N) s.

(** The candidates a sequence of calls gives to [add_seed], in call order. *)
Fixpoint added_seeds (cs : list call) : list str :=
  match cs with
  | [] => []
  | ProduceNext :: cs' => added_seeds cs'
  | AddSeed x :: cs' => x :: added_seeds cs'
  end.

(** The calls whose argument is a string of code points. *)
Definition wf_call (c : call) : Prop :=
  match c with
  | ProduceNext => True
  | AddSeed x => wf_str x
  end.

(** The population is usable: not empty, made of strings of code points,
    and drawn from with bounds in order. *)
Definition usable (st : state) : Prop :=
  population_list st <> [] /\
  Forall wf_str (population_list st) /\
  min_mutations (self st) <= max_mutations (self st).

(** [self.reset()] on the engine of a state. *)
Definition reset_engine (st : state) : state :=
  {| self := reset (self st); store := store st; stdout := stdout st; gen := gen st |}.

(** * Properties *)

(** ** The random source *)

Lemma bind_ok {A B} (m : M A) (k : A -> M B) g a g' :
  m g = Ok (a, g') -> bind m k g = k a g'.
Proof. intros E. unfold bind. now rewrite E. Qed.

Lemma bind_raise {A B} (m : M A) (k : A -> M B) g e :
  m g = Raise e -> bind m k g = Raise e.
Proof. intros E. unfold bind. now rewrite E. Qed.

Lemma lift_ok {A} (r : result A) a g : r = Ok a -> lift r g = Ok (a, g).
Proof. intros ->. reflexivity. Qed.

Lemma randbelow_spec (n : nat) g :
  (0 < n)%nat ->
  exists r, randbelow n g = Ok (r, advance g) /\ (r < n)%nat.
Proof.
  intros Hn. exists (peek g mod n)%nat. split; [reflexivity|].
  apply Nat.mod_upper_bound. lia.
Qed.

Lemma randrange_spec (start stop : Z) g :
  start < stop ->
  exists r, randrange start stop g = Ok (r, advance g) /\ start <= r < stop.
Proof.
  intros Hlt. unfold randrange.
  destruct (Z.ltb_spec 0 (stop - start)) as [_|]; [|lia].
  destruct (randbelow_spec (Z.to_nat (stop - start)) g) as (r & Er & Hr); [lia|].
  exists (start + Z.of_nat r). split; [|lia].
  rewrite (bind_ok _ _ _ _ _ Er). reflexivity.
Qed.

Lemma randint_spec (a b : Z) g :
  a <= b ->
  exists r, randint a b g = Ok (r, advance g) /\ a <= r <= b.
Proof.
  intros Hle. destruct (randrange_spec a (b + 1) g) as (r & Er & Hr); [lia|].
  exists r. split; [exact Er|lia].
Qed.

Lemma randint_empty (a b : Z) g : b < a -> randint a b g = Raise ValueError.
Proof.
  intros Hlt. unfold randint, randrange.
  destruct (Z.ltb_spec 0 (b + 1 - a)); [lia|reflexivity].
Qed.

Lemma choice_spec {A} (seq : list A) g :
  seq <> [] ->
  exists i x, choice seq g = Ok (x, advance g) /\ seq !! i = Some x /\
              i = (peek g mod length seq)%nat.
Proof.
  intros Hne. destruct seq as [|a seq']; [congruence|].
  destruct (randbelow_spec (length (a :: seq')) g) as (i & Ei & Hi); [simpl; lia|].
  destruct (lookup_lt_is_Some_2 (a :: seq') i Hi) as [x Hx].
  exists i, x. unfold choice. rewrite (bind_ok _ _ _ _ _ Ei), Hx.
  repeat split; try reflexivity.
  unfold randbelow in Ei. now inversion Ei.
Qed.

Lemma choice_empty {A} g : choice (@nil A) g = Raise IndexError.
Proof. reflexivity. Qed.

(** Every member of a sequence is drawn by some tape. *)
Lemma choice_reaches {A} (seq : list A) i x (g : rng) :
  seq !! i = Some x ->
  choice seq {| tape := fun _ => i; head := head g |}
  = Ok (x, advance {| tape := fun _ => i; head := head g |}).
Proof.
  intros Hx. pose proof (lookup_lt_Some _ _ _ Hx) as Hi.
  destruct seq as [|a seq']; [simpl in Hi; lia|].
  unfold choice, bind, randbelow, peek. cbn [tape head].
  rewrite Nat.mod_small by exact Hi. now rewrite Hx.
Qed.

(** The raw draws on which [randbelow n] gives [r] are the [q * n + r]:
    one in every block of [n] consecutive raw draws, for each [r] alike. *)
Lemma randbelow_uniform (n r : nat) (g : rng) :
  (r < n)%nat ->
  randbelow n g = Ok (r, advance g) <-> exists q, peek g = (q * n + r)%nat.
Proof.
  intros Hr. unfold randbelow. split.
  - intros [= E]. exists (peek g / n)%nat.
    pose proof (Nat.div_mod_eq (peek g) n). lia.
  - intros [q ->]. do 2 f_equal.
    rewrite Nat.add_comm, Nat.Div0.mod_add. now apply Nat.mod_small.
Qed.

Lemma randint_value (a b : Z) g :
  a <= b ->
  randint a b g
  = Ok (a + Z.of_nat (peek g mod Z.to_nat (b + 1 - a)), advance g).
Proof.
  intros Hle. unfold randint, randrange.
  destruct (Z.ltb_spec 0 (b + 1 - a)); [reflexivity|lia].
Qed.

(** ** Rules for [returns] *)

Lemma returns_ret {A} (a : A) (Q : A -> Prop) : Q a -> returns (ret a) Q.
Proof. intros Ha g. now exists a, g. Qed.

Lemma returns_bind {A B} (m : M A) (k : A -> M B) (P : A -> Prop) (Q : B -> Prop) :
  returns m P -> (forall a, P a -> returns (k a) Q) -> returns (bind m k) Q.
Proof.
  intros Hm Hk g. destruct (Hm g) as (a & g1 & Ea & Pa).
  destruct (Hk a Pa g1) as (b & g2 & Eb & Qb).
  exists b, g2. split; [|exact Qb]. now rewrite (bind_ok _ _ _ _ _ Ea).
Qed.

Lemma returns_lift {A} (r : result A) (a : A) (Q : A -> Prop) :
  r = Ok a -> Q a -> returns (lift r) Q.
Proof. intros -> Ha g. now exists a, g. Qed.

Lemma returns_weaken {A} (m : M A) (P Q : A -> Prop) :
  returns m P -> (forall a, P a -> Q a) -> returns m Q.
Proof.
  intros Hm HPQ g. destruct (Hm g) as (a & g' & E & Pa). exists a, g'. auto.
Qed.

Lemma returns_randrange (start stop : Z) :
  start < stop -> returns (randrange start stop) (fun r => start <= r < stop).
Proof.
  intros H g. destruct (randrange_spec start stop g H) as (r & E & Hr). eauto.
Qed.

Lemma returns_randint (a b : Z) :
  a <= b -> returns (randint a b) (fun r => a <= r <= b).
Proof.
  intros H g. destruct (randint_spec a b g H) as (r & E & Hr). eauto.
Qed.

Lemma returns_randbelow (n : nat) :
  (0 < n)%nat -> returns (randbelow n) (fun r => (r < n)%nat).
Proof.
  intros H g. destruct (randbelow_spec n g H) as (r & E & Hr). eauto.
Qed.

Lemma returns_choice {A} (seq : list A) :
  seq <> [] -> returns (choice seq) (fun x => exists i, seq !! i = Some x).
Proof.
  intros H g. destruct (choice_spec seq g H) as (i & x & E & Hx & _). eauto.
Qed.

Lemma returns_coin : returns random_lt_half (fun _ => True).
Proof. intros g. eexists _, _. split; [reflexivity|exact I]. Qed.

Lemma getitem_ok {A} (l : list A) i x : l !! i = Some x -> getitem l i = Ok x.
Proof. intros E. unfold getitem. now rewrite E. Qed.

Lemma setitem_ok {A} (l : list A) i x :
  (i < length l)%nat -> setitem l i x = Ok (<[i := x]> l).
Proof. intros H. unfold setitem. destruct (decide _); [reflexivity|lia]. Qed.

(** ** Character-level operators *)

Lemma chr_spec (i : Z) :
  0 <= i <= max_code_point -> chr i = Ok (Z.to_N i) /\ wf_char (Z.to_N i).
Proof.
  intros Hi. unfold chr, wf_char, ord.
  destruct (Z.leb_spec 0 i); [|lia].
  destruct (Z.leb_spec i max_code_point); [|lia].
  split; [reflexivity|]. rewrite Z2N.id; lia.
Qed.

(** Flipping one of the seven low bits of a code point gives a code point. *)
Lemma flip_bit_in_range (c k : Z) :
  0 <= c <= max_code_point -> 0 <= k <= 6 ->
  0 <= Z.lxor c (Z.shiftl 1 k) <= max_code_point.
Proof.
  intros Hc Hk. unfold max_code_point in *.
  set (b := Z.shiftl 1 k).
  assert (Hb : 0 <= b < 128).
  { unfold b. rewrite Z.shiftl_1_l. split; [apply Z.pow_nonneg; lia|].
    assert (H6 : 2 ^ k <= 2 ^ 6) by (apply Z.pow_le_mono_r; lia).
    change (2 ^ 6) with 64 in H6. lia. }
  assert (Hx : 0 <= Z.lxor c b) by (apply Z.lxor_nonneg; lia).
  split; [exact Hx|].
  assert (Hq : Z.lxor c b / 128 = c / 128).
  { change 128 with (2 ^ 7).
    rewrite <- !Z.shiftr_div_pow2 by lia.
    rewrite Z.shiftr_lxor.
    replace (Z.shiftr b 7) with 0; [apply Z.lxor_0_r|].
    rewrite Z.shiftr_div_pow2 by lia. symmetry. apply Z.div_small.
    change (2 ^ 7) with 128. lia. }
  assert (c / 128 < 8704) by (apply Z.div_lt_upper_bound; lia).
  pose proof (Z.mod_pos_bound (Z.lxor c b) 128 ltac:(lia)).
  pose proof (Z.div_mod (Z.lxor c b) 128 ltac:(lia)).
  lia.
Qed.

Lemma wf_str_splice (s mid : str) (i j : nat) :
  wf_str s -> wf_str mid -> wf_str (take i s ++ mid ++ drop j s).
Proof.
  unfold wf_str. intros Hs Hm.
  apply Forall_app; split; [now apply Forall_take|].
  apply Forall_app; split; [exact Hm|now apply Forall_drop].
Qed.

Lemma delete_random_character_nonempty (s : str) :
  s <> [] ->
  delete_random_character s =
  (pos <- randint 0 (len s - 1) ;;
   ret (take (Z.to_nat pos) s ++ drop (Z.to_nat (pos + 1)) s)).
Proof. destruct s; [congruence|reflexivity]. Qed.

Lemma flip_random_character_nonempty (s : str) :
  s <> [] ->
  flip_random_character s =
  (pos <- randint 0 (len s - 1) ;;
   c <- lift (getitem s (Z.to_nat pos)) ;;
   k <- randint 0 6 ;;
   new_c <- lift (chr (Z.lxor (ord c) (Z.shiftl 1 k))) ;;
   ret (take (Z.to_nat pos) s ++ [new_c] ++ drop (Z.to_nat (pos + 1)) s)).
Proof. destruct s; [congruence|reflexivity]. Qed.

Lemma len_pos (s : str) : s <> [] -> 0 <= len s - 1.
Proof. destruct s; [congruence|]. unfold len. simpl length. lia. Qed.

(** [delete_random_character] never raises; it removes one character of a
    non-empty string. *)
Lemma delete_random_character_returns (s : str) :
  returns (delete_random_character s)
    (fun s' => (wf_str s -> wf_str s') /\
               (s <> [] -> S (length s') = length s)).
Proof.
  destruct (decide (s = [])) as [->|Hne].
  { apply returns_ret. split; [auto|congruence]. }
  rewrite (delete_random_character_nonempty s Hne).
  eapply returns_bind; [apply returns_randint, len_pos, Hne|].
  intros pos Hpos. apply returns_ret. split.
  - intros Hs. apply (wf_str_splice s [] _ _ Hs). constructor.
  - intros _. unfold len in Hpos.
    rewrite length_app, length_take, length_drop. lia.
Qed.

(** [insert_random_character] never raises; it adds one printable ASCII
    character. *)
Lemma insert_random_character_returns (s : str) :
  returns (insert_random_character s)
    (fun s' => (wf_str s -> wf_str s') /\ length s' = S (length s)).
Proof.
  unfold insert_random_character.
  eapply returns_bind; [apply returns_randint; unfold len; lia|].
  intros pos Hpos.
  eapply returns_bind; [apply returns_randrange; lia|].
  intros code Hcode. cbv beta in Hcode.
  destruct (chr_spec code) as [Echr Hwf]; [unfold max_code_point; lia|].
  eapply returns_bind; [apply (returns_lift _ _ (fun c => c = Z.to_N code) Echr eq_refl)|].
  intros c ->. apply returns_ret. split.
  - intros Hs. apply (wf_str_splice s [Z.to_N code] _ _ Hs).
    constructor; [exact Hwf|constructor].
  - unfold len in Hpos.
    rewrite length_app, length_take. simpl length. rewrite length_drop. lia.
Qed.

(** [flip_random_character] never raises on a string of code points; the
    length is kept. *)
Lemma flip_random_character_returns (s : str) :
  wf_str s ->
  returns (flip_random_character s)
    (fun s' => wf_str s' /\ length s' = length s).
Proof.
  intros Hs. destruct (decide (s = [])) as [->|Hne].
  { apply returns_ret. split; [exact Hs|reflexivity]. }
  rewrite (flip_random_character_nonempty s Hne).
  eapply returns_bind; [apply returns_randint, len_pos, Hne|].
  intros pos Hpos. cbv beta in Hpos.
  assert (Hlt : (Z.to_nat pos < length s)%nat) by (unfold len in Hpos; lia).
  destruct (lookup_lt_is_Some_2 s _ Hlt) as [c Hc].
  eapply returns_bind;
    [apply (returns_lift _ _ (fun x => x = c) (getitem_ok _ _ _ Hc) eq_refl)|].
  intros ? ->.
  eapply returns_bind; [apply returns_randint; lia|].
  intros k Hk. cbv beta in Hk.
  assert (Hcw : wf_char c).
  { unfold wf_str in Hs. rewrite Forall_lookup in Hs. exact (Hs _ _ Hc). }
  destruct (chr_spec (Z.lxor (ord c) (Z.shiftl 1 k))) as [Echr Hwf].
  { apply flip_bit_in_range; [|exact Hk].
    unfold wf_char in Hcw. unfold ord in *. lia. }
  eapply returns_bind; [apply (returns_lift _ _ wf_char Echr Hwf)|].
  intros new_c Hnew. apply returns_ret. split.
  - apply (wf_str_splice s [new_c] _ _ Hs). constructor; [exact Hnew|constructor].
  - unfold len in Hpos.
    rewrite length_app, length_take. simpl length. rewrite length_drop. lia.
Qed.

(** ** Sequence helpers of the token-level operators *)

Lemma indices_from_spec (p : str -> bool) (i : nat) (ts : list str) (k : nat) :
  k ∈ indices_from p i ts ->
  (i <= k)%nat /\ exists t, ts !! (k - i)%nat = Some t /\ p t = true.
Proof.
  revert i. induction ts as [|t ts IH]; intros i Hk; simpl in Hk.
  - now apply elem_of_nil in Hk.
  - assert (Hrest : k ∈ indices_from p (S i) ts ->
                    (i <= k)%nat /\ exists t', (t :: ts) !! (k - i)%nat = Some t' /\ p t' = true).
    { intros H. destruct (IH _ H) as (Hle & t' & Ht' & Hp). split; [lia|].
      exists t'. split; [|exact Hp].
      replace (k - i)%nat with (S (k - S i)) by lia. exact Ht'. }
    destruct (p t) eqn:Ept; [|auto].
    apply elem_of_cons in Hk as [->|Hk]; [|auto].
    split; [lia|]. exists t. rewrite Nat.sub_diag. auto.
Qed.

Lemma indices_where_spec (p : str -> bool) (ts : list str) (k : nat) :
  k ∈ indices_where p ts -> exists t, ts !! k = Some t /\ p t = true.
Proof.
  intros H. destruct (indices_from_spec p 0 ts k H) as (_ & t & Ht & Hp).
  rewrite Nat.sub_0_r in Ht. eauto.
Qed.

Lemma indices_where_lt (p : str -> bool) (ts : list str) :
  Forall (fun k => (k < length ts)%nat) (indices_where p ts).
Proof.
  apply list.Forall_forall. intros k Hk.
  destruct (indices_where_spec p ts k Hk) as (t & Ht & _).
  exact (lookup_lt_Some _ _ _ Ht).
Qed.

(** No index is selected when no token qualifies. *)
Lemma indices_from_none (p : str -> bool) (i : nat) (ts : list str) :
  Forall (fun t => p t = false) ts -> indices_from p i ts = [].
Proof.
  intros H. revert i. induction H as [|t ts Ht _ IH]; intros i; simpl.
  - reflexivity.
  - rewrite Ht. apply IH.
Qed.

Lemma swap_items_ok {A} (x : list A) (i j : nat) :
  (i < length x)%nat -> (j < length x)%nat ->
  exists x', swap_items x i j = Ok x' /\ length x' = length x.
Proof.
  intros Hi Hj.
  destruct (lookup_lt_is_Some_2 x i Hi) as [xi Exi].
  destruct (lookup_lt_is_Some_2 x j Hj) as [xj Exj].
  exists (<[j := xi]> (<[i := xj]> x)). unfold swap_items.
  rewrite (getitem_ok _ _ _ Exj), (getitem_ok _ _ _ Exi).
  rewrite (setitem_ok x i xj Hi).
  rewrite setitem_ok by (rewrite length_insert; exact Hj).
  split; [reflexivity|]. now rewrite !length_insert.
Qed.

Lemma shuffle_from_returns {A} (i : nat) (x : list A) :
  (i < length x)%nat \/ i = 0%nat ->
  returns (shuffle_from i x) (fun x' => length x' = length x).
Proof.
  revert x. induction i as [|i IH]; intros x Hi.
  - now apply returns_ret.
  - destruct Hi as [Hi|]; [|lia]. simpl.
    eapply returns_bind; [apply returns_randbelow; lia|].
    intros j Hj. cbv beta in Hj.
    destruct (swap_items_ok x (S i) j Hi ltac:(lia)) as (x' & Ex' & Hlen).
    eapply returns_bind;
      [apply (returns_lift _ _ (fun y => length y = length x) Ex' Hlen)|].
    intros y Hy. cbv beta in Hy. eapply returns_weaken; [apply IH; lia|].
    intros y' Hy'. cbv beta in *. lia.
Qed.

Lemma shuffle_returns {A} (x : list A) :
  returns (shuffle x) (fun x' => length x' = length x).
Proof. apply shuffle_from_returns. destruct x; simpl; lia. Qed.

Lemma getitems_returns (ts : list str) (ks : list nat) :
  Forall (fun k => (k < length ts)%nat) ks ->
  returns (getitems ts ks) (fun xs => length xs = length ks).
Proof.
  induction 1 as [|k ks Hk _ IH]; simpl.
  - now apply returns_ret.
  - destruct (lookup_lt_is_Some_2 ts k Hk) as [x Ex].
    eapply returns_bind;
      [apply (returns_lift _ _ (fun _ => True) (getitem_ok _ _ _ Ex) I)|].
    intros ? _. eapply returns_bind; [exact IH|].
    intros xs Hxs. apply returns_ret. simpl. now rewrite Hxs.
Qed.

Lemma assign_from_returns (segment : list str) (ks : list nat) :
  forall (j : nat) (ts : list str),
  Forall (fun k => (k < length ts)%nat) ks ->
  (j + length ks <= length segment)%nat ->
  returns (assign_from segment j ks ts) (fun ts' => length ts' = length ts).
Proof.
  induction ks as [|k ks IH]; intros j ts Hks Hj; simpl.
  - now apply returns_ret.
  - inversion Hks as [|? ? Hk Hks']; subst. clear Hks. rename Hks' into Hks.
    simpl in Hj.
    destruct (lookup_lt_is_Some_2 segment j ltac:(lia)) as [x Ex].
    eapply returns_bind;
      [apply (returns_lift _ _ (fun y => y = x) (getitem_ok _ _ _ Ex) eq_refl)|].
    intros ? ->.
    eapply returns_bind;
      [apply (returns_lift _ _ (fun y => y = <[k := x]> ts) (setitem_ok _ _ _ Hk) eq_refl)|].
    intros ? ->.
    eapply returns_weaken.
    + apply IH; [|lia].
      eapply list.Forall_impl; [exact Hks|]. intros k' Hk'. cbv beta in *.
      now rewrite length_insert.
    + intros ts' Hts'. cbv beta in *. now rewrite Hts', length_insert.
Qed.

(** ** Token-level operators *)

Lemma returns_name {A} (binding : option A) (v : A) (Q : A -> Prop) :
  binding = Some v -> Q v -> returns (name binding) Q.
Proof. intros -> Hv g. now exists v, g. Qed.

Lemma is_keyword_nonempty {ops : StrOps} (kw : list str) (t : str) :
  is_keyword kw t = true -> kw <> [].
Proof.
  unfold is_keyword. intros H%bool_decide_eq_true Hnil.
  rewrite Hnil in H. now apply elem_of_nil in H.
Qed.

Lemma boundary_values_nonempty : boundary_values <> [].
Proof. discriminate. Qed.

Lemma suffixes_nonempty : suffixes <> [].
Proof. discriminate. Qed.

(** An operator stops at its first statement when [_tok] is unbound,
    whatever else is bound. *)
Lemma unbound_tok_raises {ops : StrOps} (G : globals) (s : str) (g : rng) :
  _tok G = None ->
  replace_sql_token G s g = Raise NameError /\
  duplicate_sql_clause G s g = Raise NameError /\
  shuffle_sql_tokens G s g = Raise NameError.
Proof.
  intros E. unfold replace_sql_token, duplicate_sql_clause, shuffle_sql_tokens.
  rewrite E. repeat split.
Qed.

(** C4 fails on the code at every input, the empty string included.  The
    three token-level operators call [_tok] in their first statement, and
    the module binds no such name: each of them raises [NameError], where
    the claim has it return a string, the input itself when no token is
    eligible. *)
Theorem sql_operators_raise_name_error {ops : StrOps} (s : str) (g : rng) :
  replace_sql_token module_globals s g = Raise NameError /\
  duplicate_sql_clause module_globals s g = Raise NameError /\
  shuffle_sql_tokens module_globals s g = Raise NameError /\
  replace_sql_token module_globals [] g = Raise NameError /\
  duplicate_sql_clause module_globals [] g = Raise NameError /\
  shuffle_sql_tokens module_globals [] g = Raise NameError.
Proof. repeat split. Qed.

(** C8 fails on the code at this input.  On "SELECT", whose only token is
    a keyword, [replace_sql_token] replaces nothing: it raises [NameError]
    at its first statement, for every outcome of the draws. *)
Theorem replace_sql_token_raises_on_keyword {ops : StrOps} (g : rng) :
  replace_sql_token module_globals (py "SELECT") g = Raise NameError.
Proof. reflexivity. Qed.

(** C9 fails on the code at this input.  On "SELECT * FROM t",
    [duplicate_sql_clause] yields no string: it raises [NameError] at its
    first statement, for every outcome of the draws. *)
Theorem duplicate_sql_clause_raises_on_select_from {ops : StrOps} (g : rng) :
  duplicate_sql_clause module_globals (py "SELECT * FROM t") g = Raise NameError.
Proof. reflexivity. Qed.

(** *** The operators in a namespace that binds the four names *)

Section BoundNames.

Context {ops : StrOps}.
Variable G : globals.
Variable tok : str -> list str.
Variable unt : list str -> str.
Variable kw : list str.
Hypothesis Htok : _tok G = Some tok.
Hypothesis Hunt : _unt G = Some unt.
Hypothesis Hkw : _SQL_KW G = Some kw.
Hypothesis Hre : re G = Some tt.

Lemma returns_tok Q : Q tok -> returns (name (_tok G)) Q.
Proof. now apply returns_name. Qed.

Lemma returns_unt (ts : list str) :
  returns (u <- name (_unt G) ;; ret (u ts)) (fun out => out = unt ts).
Proof.
  eapply returns_bind; [apply (returns_name _ unt (fun u => u = unt) Hunt eq_refl)|].
  intros ? ->. now apply returns_ret.
Qed.

Lemma keyword_indices_bound (ts : list str) :
  forall (i : nat) (g : rng),
  keyword_indices_from G i ts g
  = Ok (indices_from (fun t => is_content t && is_keyword kw t) i ts, g).
Proof.
  induction ts as [|t ts IH]; intros i g; simpl; [reflexivity|].
  rewrite Hkw. unfold bind. destruct (is_content t); simpl.
  - rewrite IH. now destruct (is_keyword kw t).
  - now rewrite IH.
Qed.

(** With the names bound, [replace_sql_token] raises nothing. *)
Lemma replace_sql_token_returns (s : str) :
  returns (replace_sql_token G s) (fun _ => True).
Proof.
  unfold replace_sql_token.
  eapply returns_bind; [apply (returns_tok (fun f => f = tok) eq_refl)|].
  intros ? ->. cbv zeta.
  pose proof (indices_where_lt is_content (tok s)) as Hidx.
  destruct (indices_where is_content (tok s)) as [|i0 idx0].
  { now apply returns_ret. }
  eapply returns_bind; [apply returns_choice; discriminate|].
  intros i [n Hn].
  assert (Hi : (i < length (tok s))%nat).
  { rewrite Forall_lookup in Hidx. exact (Hidx _ _ Hn). }
  destruct (lookup_lt_is_Some_2 _ _ Hi) as [t Ht].
  eapply returns_bind;
    [apply (returns_lift _ _ (fun x => x = t) (getitem_ok _ _ _ Ht) eq_refl)|].
  intros ? ->.
  eapply returns_bind; [apply (returns_name _ kw (fun l => l = kw) Hkw eq_refl)|].
  intros ? ->.
  assert (Hset : forall x, returns (lift (setitem (tok s) i x)) (fun _ => True)).
  { intros x. exact (returns_lift _ _ _ (setitem_ok _ _ x Hi) I). }
  eapply returns_bind with (P := fun _ => True).
  2:{ intros ts' _. eapply returns_weaken; [apply returns_unt|]. auto. }
  destruct (is_keyword kw t) eqn:Ekw.
  { eapply returns_bind; [apply (returns_name _ kw (fun l => l = kw) Hkw eq_refl)|].
    intros ? ->.
    eapply returns_bind; [apply returns_choice, (is_keyword_nonempty _ t Ekw)|].
    intros alt _. apply Hset. }
  eapply returns_bind; [apply (returns_name _ tt (fun _ => True) Hre I)|].
  intros _ _.
  destruct (fullmatch_digits t).
  { eapply returns_bind; [apply returns_choice, boundary_values_nonempty|].
    intros v _. apply Hset. }
  destruct (startswith_quote t && endswith_quote t).
  { eapply returns_bind; [apply returns_coin|].
    intros b _.
    eapply returns_bind with (P := fun _ => True); [|intros; apply Hset].
    destruct b.
    - eapply returns_bind; [apply returns_randint; lia|].
      intros; now apply returns_ret.
    - destruct (contains_char _ _); now apply returns_ret. }
  eapply returns_bind; [apply returns_coin|].
  intros b _. destruct b.
  - eapply returns_bind; [apply returns_choice, suffixes_nonempty|].
    intros suffix _. apply Hset.
  - apply Hset.
Qed.

(** With the names bound, [duplicate_sql_clause] raises nothing. *)
Lemma duplicate_sql_clause_returns (s : str) :
  returns (duplicate_sql_clause G s) (fun _ => True).
Proof.
  unfold duplicate_sql_clause.
  eapply returns_bind; [apply (returns_tok (fun f => f = tok) eq_refl)|].
  intros ? ->. cbv zeta.
  set (p := fun t => is_content t && is_keyword kw t).
  eapply returns_bind with (P := fun idx => idx = indices_where p (tok s)).
  { intros g. eexists _, g. split; [apply keyword_indices_bound|reflexivity]. }
  intros ? ->.
  pose proof (indices_where_lt p (tok s)) as Hidx.
  destruct (indices_where p (tok s)) as [|i0 idx0].
  { now apply returns_ret. }
  eapply returns_bind; [apply returns_choice; discriminate|].
  intros i [n Hn].
  assert (Hi : (i < length (tok s))%nat).
  { rewrite Forall_lookup in Hidx. exact (Hidx _ _ Hn). }
  destruct (lookup_lt_is_Some_2 _ _ Hi) as [t Ht].
  eapply returns_bind;
    [apply (returns_lift _ _ (fun _ => True) (getitem_ok _ _ _ Ht) I)|].
  intros ? _.
  eapply returns_bind; [apply returns_randint; lia|].
  intros pos _. eapply returns_weaken; [apply returns_unt|]. auto.
Qed.

(** With the names bound, [shuffle_sql_tokens] raises nothing. *)
Lemma shuffle_sql_tokens_returns (s : str) :
  returns (shuffle_sql_tokens G s) (fun _ => True).
Proof.
  unfold shuffle_sql_tokens.
  eapply returns_bind; [apply (returns_tok (fun f => f = tok) eq_refl)|].
  intros ? ->. cbv zeta.
  pose proof (indices_where_lt is_content (tok s)) as Hidx.
  set (idx := indices_where is_content (tok s)) in *.
  destruct (Z.ltb_spec (Z.of_nat (length idx)) 2) as [|Hlen].
  { now apply returns_ret. }
  eapply returns_bind; [apply returns_randint; lia|].
  intros start Hstart. cbv beta in Hstart.
  eapply returns_bind; [apply returns_randint; lia|].
  intros end_ Hend. cbv beta in Hend.
  set (segment_idx := drop (Z.to_nat start) (take (Z.to_nat (end_ + 1)) idx)).
  assert (Hseg : Forall (fun k => (k < length (tok s))%nat) segment_idx).
  { apply Forall_drop, Forall_take, Hidx. }
  eapply returns_bind; [apply (getitems_returns _ _ Hseg)|].
  intros segment Hsegment. cbv beta in Hsegment.
  eapply returns_bind; [apply shuffle_returns|].
  intros segment' Hsegment'. cbv beta in Hsegment'.
  eapply returns_bind; [apply (assign_from_returns _ _ _ _ Hseg); lia|].
  intros ts' _. eapply returns_weaken; [apply returns_unt|]. auto.
Qed.

(** With the names bound and no content token, the three operators return
    their input. *)
Lemma sql_operators_noop (s : str) (g : rng) :
  Forall (fun t => is_content t = false) (tok s) ->
  replace_sql_token G s g = Ok (s, g) /\
  duplicate_sql_clause G s g = Ok (s, g) /\
  shuffle_sql_tokens G s g = Ok (s, g).
Proof.
  intros Hws.
  unfold replace_sql_token, duplicate_sql_clause, shuffle_sql_tokens, indices_where.
  rewrite Htok. unfold name, bind, ret. cbv zeta.
  rewrite keyword_indices_bound.
  rewrite (indices_from_none is_content 0 _ Hws).
  rewrite indices_from_none.
  - repeat split; reflexivity.
  - eapply list.Forall_impl; [exact Hws|]. intros t Ht. cbv beta. now rewrite Ht.
Qed.

End BoundNames.

(** ** The tokenizer *)

Section TokenizerProperties.

Context {ops : StrOps}.

Lemma concat_flush (cur : str) : concat (Tokenizer.flush cur) = cur.
Proof. destruct cur; simpl; [reflexivity|now rewrite app_nil_r]. Qed.

(** Whatever the state of the scanner, the tokens it emits spell the
    pending token followed by the rest of the input. *)
Lemma concat_scan (s : str) :
  forall (m : Tokenizer.mode) (cur : str),
  concat (Tokenizer.scan m cur s) = cur ++ s.
Proof.
  induction s as [|c s IH]; intros m cur; simpl.
  - now rewrite concat_flush, app_nil_r.
  - assert (Hnew : forall m', concat (Tokenizer.flush cur ++ Tokenizer.scan m' [c] s)
                              = cur ++ c :: s).
    { intros m'. now rewrite concat_app, concat_flush, IH. }
    assert (Hext : forall m', concat (Tokenizer.scan m' (cur ++ [c]) s)
                              = cur ++ c :: s).
    { intros m'. now rewrite IH, <- app_assoc. }
    destruct m; destruct (N.eqb c quote); try destruct (c_isspace c);
      try apply Hnew; try apply Hext.
    all: simpl; rewrite IH; now rewrite <- app_assoc.
Qed.

(** No token is empty. *)
Lemma scan_nonempty (s : str) :
  forall (m : Tokenizer.mode) (cur : str),
  Forall (fun t => t <> []) (Tokenizer.scan m cur s).
Proof.
  assert (Hflush : forall cur, Forall (fun t : str => t <> []) (Tokenizer.flush cur)).
  { intros [|c cur]; simpl; repeat constructor. discriminate. }
  assert (Hsnoc : forall (cur : str) c, cur ++ [c] <> []).
  { intros [|a l] c; discriminate. }
  induction s as [|c s IH]; intros m cur; simpl.
  - apply Hflush.
  - destruct m; destruct (N.eqb c quote); try destruct (c_isspace c);
      repeat first [apply Forall_app; split | apply list.Forall_cons; split
                   | apply Hflush | apply IH | apply Hsnoc].
Qed.

End TokenizerProperties.

Example tokenize_literal :
  @Tokenizer.tokenize Ascii.ops (py "x='a b'  y")
  = [py "x="; py "'a b'"; py "  "; py "y"].
Proof. reflexivity. Qed.

(** C5.  Reassembling the tokens of a string gives the string back:
    [untokenize (tokenize s) = s] for every string [s].  [untokenize] only
    concatenates the token texts: it maps the empty sequence to the empty
    string, a single token to its text, and the concatenation of two
    sequences to the concatenation of their reassemblies.  The empty string
    has no token. *)
Theorem tokenize_roundtrip {ops : StrOps} (s : str) :
  Tokenizer.untokenize (Tokenizer.tokenize s) = s /\
  Tokenizer.tokenize [] = [] /\
  Tokenizer.untokenize [] = [] /\
  (forall t, Tokenizer.untokenize [t] = t) /\
  (forall ts1 ts2,
     Tokenizer.untokenize (ts1 ++ ts2)
     = Tokenizer.untokenize ts1 ++ Tokenizer.untokenize ts2).
Proof.
  unfold Tokenizer.untokenize, Tokenizer.tokenize.
  split; [apply (concat_scan s Tokenizer.Idle [])|].
  split; [reflexivity|]. split; [reflexivity|].
  split; [intros t; simpl; apply app_nil_r|].
  intros ts1 ts2. apply concat_app.
Qed.

(** ** The engine: construction *)

Lemma init_ok (l : loc) (mn mx : option Z) :
  __init__ l mn mx =
  Ok {| seed := l; min_mutations := default 2 mn; max_mutations := default 10 mx;
        population := l; seed_index := 0; inp := None |}.
Proof. reflexivity. Qed.

(** After construction the two attributes hold the same list object. *)
Lemma init_aliases (l : loc) (mn mx : option Z) (f : MyMutationFuzzer) :
  __init__ l mn mx = Ok f -> population f = seed f /\ seed f = l.
Proof. rewrite init_ok. intros [= <-]. split; reflexivity. Qed.

Lemma create_candidate_empty (f : MyMutationFuzzer) (h : heap) (g : rng) :
  h (population f) = [] -> create_candidate f h g = Raise IndexError.
Proof. intros E. unfold create_candidate. now rewrite E. Qed.

Lemma create_candidate_bad_bounds (f : MyMutationFuzzer) (h : heap) (g : rng) :
  h (population f) <> [] -> max_mutations f < min_mutations f ->
  create_candidate f h g = Raise ValueError.
Proof.
  intros Hne Hlt. unfold create_candidate.
  destruct (choice_spec _ g Hne) as (i & x & E & _).
  rewrite (bind_ok _ _ _ _ _ E).
  apply bind_raise, randint_empty, Hlt.
Qed.

(** C3, as amended.  Construction validates nothing and never fails: for
    every seed list, the empty one included, and every pair of bounds, also
    with [max_mutations < min_mutations], it produces an engine with the
    cursor at 0, the population bound to the seed list and the bounds as
    given (2 and 10 when omitted).  The configuration is only found invalid
    when a candidate is created: [IndexError] for an empty population,
    [ValueError] for an empty range of trial counts. *)
Theorem construction_never_fails (h : heap) (l : loc) (mn mx : option Z) (g : rng) :
  exists f,
    __init__ l mn mx = Ok f /\
    seed f = l /\ population f = l /\ seed_index f = 0%nat /\
    min_mutations f = default 2 mn /\ max_mutations f = default 10 mx /\
    (h l = [] -> create_candidate f h g = Raise IndexError) /\
    (h l <> [] -> max_mutations f < min_mutations f ->
     create_candidate f h g = Raise ValueError).
Proof.
  eexists. split; [apply init_ok|]. simpl.
  repeat split.
  - intros E. now apply create_candidate_empty.
  - intros Hne Hlt. now apply create_candidate_bad_bounds.
Qed.

(** C3 fails as stated: an engine is produced from an empty seed list and
    from bounds with [max_mutations < min_mutations]. *)
Lemma construction_accepts_invalid_configuration :
  exists f,
    __init__ 0%nat (Some 5) (Some 1) = Ok f /\
    heap_of [] (seed f) = [] /\
    max_mutations f < min_mutations f /\
    __init__ 0%nat (Some 5) (Some 1) <> Raise InvalidConfiguration.
Proof.
  eexists. split; [apply init_ok|]. simpl.
  split; [reflexivity|]. split; [lia|]. rewrite init_ok. discriminate.
Qed.

(** ** The engine: [fuzz] *)

Lemma fuzz_seeding (st : state) :
  seeding st ->
  exists x,
    seed_list st !! seed_index (self st) = Some x /\
    fuzz st = Ok (x, {| self := set_inp (self st) x (S (seed_index (self st)));
                        store := store st; stdout := stdout st; gen := gen st |}).
Proof.
  unfold seeding, seed_list. intros H.
  destruct (lookup_lt_is_Some_2 _ _ H) as [x Ex].
  exists x. split; [exact Ex|]. unfold fuzz.
  destruct (decide _) as [_|Hn]; [|contradiction].
  now rewrite (getitem_ok _ _ _ Ex).
Qed.

Lemma fuzz_mutating (st : state) :
  ~ seeding st ->
  fuzz st =
  match create_candidate (self st) (store st) (gen st) with
  | Ok (x, g') =>
      Ok (x, {| self := set_inp (self st) x (seed_index (self st));
                store := store st; stdout := stdout st; gen := g' |})
  | Raise e => Raise e
  end.
Proof.
  unfold seeding. intros H. unfold fuzz.
  destruct (decide _) as [Hy|_]; [contradiction|reflexivity].
Qed.

(** C6.  While the cursor is below the seed-list length, [fuzz] returns the
    seed under the cursor and moves the cursor one step; nothing else
    changes, and no random value is drawn.  Once the cursor has reached the
    seed-list length, [fuzz] returns what [create_candidate] returns, and
    the cursor stays.  With the seed list ["SELECT 1"] and the cursor at 0,
    [fuzz] returns "SELECT 1" and leaves the cursor at 1, where the engine is
    no longer seeding. *)
Theorem fuzz_seeds_then_mutates (st : state) :
  (seeding st ->
   exists x,
     seed_list st !! seed_index (self st) = Some x /\
     fuzz st = Ok (x, {| self := set_inp (self st) x (S (seed_index (self st)));
                         store := store st; stdout := stdout st; gen := gen st |})) /\
  (~ seeding st ->
   (forall x g', create_candidate (self st) (store st) (gen st) = Ok (x, g') ->
      fuzz st = Ok (x, {| self := set_inp (self st) x (seed_index (self st));
                          store := store st; stdout := stdout st; gen := g' |})) /\
   (forall e, create_candidate (self st) (store st) (gen st) = Raise e ->
      fuzz st = Raise e)) /\
  (forall mn mx, exists st0 st1,
     boot [py "SELECT 1"] mn mx (gen st) = Ok st0 /\
     seed_index (self st0) = 0%nat /\
     fuzz st0 = Ok (py "SELECT 1", st1) /\
     seed_index (self st1) = 1%nat /\
     seed_list st1 = [py "SELECT 1"] /\
     ~ seeding st1).
Proof.
  split; [apply fuzz_seeding|]. split.
  - intros H. rewrite (fuzz_mutating st H). split.
    + intros x g' ->. reflexivity.
    + intros e ->. reflexivity.
  - intros mn mx. eexists _, _. unfold boot. rewrite init_ok.
    split; [reflexivity|]. split; [reflexivity|].
    split; [reflexivity|]. split; [reflexivity|]. split; [reflexivity|].
    unfold seeding. simpl. lia.
Qed.

(** C10.  When the seed list is empty, construction succeeds, the engine
    starts with the cursor at 0, which is the seed-list length, so it is
    Mutating from the start, and the first call of [fuzz] raises
    [IndexError]: [create_candidate] chooses from the empty population. *)
Theorem empty_seed_list_raises_on_first_fuzz
    (h : heap) (l : loc) (mn mx : option Z) (out : list str) (g : rng) :
  h l = [] ->
  exists f,
    __init__ l mn mx = Ok f /\
    let st := {| self := f; store := h; stdout := out; gen := g |} in
    seed_index f = 0%nat /\
    seed_index f = length (seed_list st) /\
    ~ seeding st /\
    create_candidate f h g = Raise IndexError /\
    fuzz st = Raise IndexError.
Proof.
  intros E. eexists. split; [apply init_ok|]. cbv zeta.
  assert (Hc : forall f, population f = l -> create_candidate f h g = Raise IndexError).
  { intros f <-. now apply create_candidate_empty. }
  unfold seeding, seed_list. simpl. rewrite E. simpl.
  split; [reflexivity|]. split; [reflexivity|]. split; [lia|].
  split; [now apply Hc|].
  rewrite fuzz_mutating.
  - simpl. now rewrite Hc.
  - unfold seeding. simpl. rewrite E. simpl. lia.
Qed.

(** ** The engine: [add_seed] *)

(** [add_seed] appends to the population, whatever the candidate: nothing
    is compared with the members already there. *)
Lemma add_seed_population (c : str) (st : state) :
  population_list (add_seed c st) = population_list st ++ [c] /\
  length (population_list (add_seed c st)) = S (length (population_list st)) /\
  population_list (add_seed c st) !! length (population_list st) = Some c.
Proof.
  unfold population_list, add_seed. cbv zeta. cbn [self store].
  rewrite fn_lookup_insert.
  split; [reflexivity|]. split.
  - rewrite length_app. simpl. lia.
  - rewrite lookup_app_r by lia. now rewrite Nat.sub_diag.
Qed.

(** The new member is drawn by some tape. *)
Lemma add_seed_selectable (c : str) (st : state) (g : rng) :
  exists g0 g1, choice (population_list (add_seed c st)) g0 = Ok (c, g1).
Proof.
  destruct (add_seed_population c st) as (_ & _ & Hc).
  eexists _, _. exact (choice_reaches _ _ _ g Hc).
Qed.

(** The engine, the generator and every other list object are untouched. *)
Lemma add_seed_frame (c : str) (st : state) :
  self (add_seed c st) = self st /\
  gen (add_seed c st) = gen st /\
  forall l, l <> population (self st) -> store (add_seed c st) l = store st l.
Proof.
  unfold add_seed. cbv zeta. cbn [self store gen]. repeat split.
  intros l Hl. now apply fn_lookup_insert_ne.
Qed.

(** When the population is the seed-list object, the seed list grows too. *)
Lemma add_seed_seed_list_aliased (c : str) (st : state) :
  population (self st) = seed (self st) ->
  seed_list (add_seed c st) = seed_list st ++ [c].
Proof.
  intros E. unfold seed_list, add_seed. cbv zeta. cbn [self store].
  rewrite E. apply fn_lookup_insert.
Qed.

(** When the population is a list object of its own, the seed list stays. *)
Lemma add_seed_seed_list_separate (c : str) (st : state) :
  population (self st) <> seed (self st) ->
  seed_list (add_seed c st) = seed_list st.
Proof.
  intros E. unfold seed_list, add_seed. cbv zeta. cbn [self store].
  now apply fn_lookup_insert_ne.
Qed.

(** For every engine the constructor produces, [add_seed] changes the seed
    list. *)
Lemma add_seed_after_init (h : heap) (l : loc) (mn mx : option Z)
    (out : list str) (g : rng) (c : str) :
  exists f,
    __init__ l mn mx = Ok f /\
    let st := {| self := f; store := h; stdout := out; gen := g |} in
    population_list (add_seed c st) = h l ++ [c] /\
    seed_list (add_seed c st) = h l ++ [c] /\
    seed_list (add_seed c st) <> seed_list st.
Proof.
  eexists. split; [apply init_ok|]. cbv zeta.
  unfold population_list, seed_list, add_seed. cbn.
  rewrite fn_lookup_insert. repeat split.
  intros E. apply (f_equal length) in E. rewrite length_app in E. simpl in E. lia.
Qed.

(** C1 fails on the code at this input.  The engine is constructed from the
    seed list ["SELECT 1"]; after [add_seed("foo")] the population is
    ["SELECT 1"; "foo"], as claimed, but so is the seed list, which the
    claim has unchanged: both attributes are the one list object. *)
Theorem add_seed_grows_the_seed_list :
  exists st,
    boot [py "SELECT 1"] None None (rng_of []) = Ok st /\
    seed_list st = [py "SELECT 1"] /\
    population (self st) = seed (self st) /\
    population_list (add_seed (py "foo") st) = [py "SELECT 1"; py "foo"] /\
    seed_list (add_seed (py "foo") st) = [py "SELECT 1"; py "foo"].
Proof.
  eexists. unfold boot. rewrite init_ok.
  split; [reflexivity|]. repeat split.
Qed.

(** ** The engine: the cursor along a run *)

Lemma fuzz_cursor (st st' : state) (x : str) :
  fuzz st = Ok (x, st') ->
  seed (self st') = seed (self st) /\
  population (self st') = population (self st) /\
  store st' = store st /\
  (seed_index (self st) <= seed_index (self st'))%nat /\
  ((seed_index (self st) <= length (seed_list st))%nat ->
   (seed_index (self st') <= length (seed_list st'))%nat).
Proof.
  unfold fuzz, seed_list. destruct (decide _) as [Hlt|Hge].
  - destruct (getitem _ _); [|discriminate]. intros [= <- <-]. simpl.
    repeat split; lia.
  - destruct (create_candidate _ _ _) as [[y g']|]; [|discriminate].
    intros [= <- <-]. simpl. repeat split; lia.
Qed.

Lemma step_cursor (c : call) (st st' : state) (o : option str) :
  step c st = Ok (o, st') ->
  seed (self st') = seed (self st) /\
  population (self st') = population (self st) /\
  (seed_index (self st) <= seed_index (self st'))%nat /\
  (length (seed_list st) <= length (seed_list st'))%nat /\
  ((seed_index (self st) <= length (seed_list st))%nat ->
   (seed_index (self st') <= length (seed_list st'))%nat).
Proof.
  destruct c as [|x]; simpl.
  - destruct (fuzz st) as [[y st1]|] eqn:E; [|discriminate].
    intros [= <- <-]. destruct (fuzz_cursor _ _ _ E) as (Hs & Hp & Hst & Hmono & Hle).
    unfold seed_list in *. rewrite Hs, Hst. repeat split; auto.
    rewrite Hs, Hst in Hle. exact Hle.
  - intros [= <- <-].
    destruct (add_seed_frame x st) as (Hself & _ & _).
    rewrite Hself. split; [reflexivity|]. split; [reflexivity|].
    split; [lia|].
    assert (Hlen : (length (seed_list st) <= length (seed_list (add_seed x st)))%nat).
    { destruct (decide (population (self st) = seed (self st))) as [E|E].
      - rewrite (add_seed_seed_list_aliased _ _ E), length_app. lia.
      - rewrite (add_seed_seed_list_separate _ _ E). lia. }
    split; [exact Hlen|lia].
Qed.

(** The cursor never decreases and never exceeds the seed-list length. *)
Lemma run_cursor (cs : list call) :
  forall (st st' : state) (os : list (option str)),
  run cs st = Ok (os, st') ->
  (seed_index (self st) <= seed_index (self st'))%nat /\
  ((seed_index (self st) <= length (seed_list st))%nat ->
   (seed_index (self st') <= length (seed_list st'))%nat).
Proof.
  induction cs as [|c cs IH]; intros st st' os; simpl.
  - intros [= <- <-]. split; auto.
  - destruct (step c st) as [[o st1]|] eqn:E1; [|discriminate].
    destruct (run cs st1) as [[os1 st2]|] eqn:E2; [|discriminate].
    intros [= <- <-].
    destruct (step_cursor _ _ _ _ E1) as (_ & _ & Hm1 & _ & Hb1).
    destruct (IH _ _ _ E2) as (Hm2 & Hb2).
    split; [lia|auto].
Qed.

(** The seeds are dispensed once each, in their order. *)
Lemma run_dispenses_seeds (n : nat) :
  forall (st : state),
  (seed_index (self st) + n = length (seed_list st))%nat ->
  exists st',
    run (replicate n ProduceNext) st
    = Ok (map Some (drop (seed_index (self st)) (seed_list st)), st') /\
    seed_index (self st') = length (seed_list st') /\
    seed_list st' = seed_list st.
Proof.
  induction n as [|n IH]; intros st Hn.
  - exists st. simpl. rewrite drop_ge by lia. repeat split. lia.
  - destruct (fuzz_seeding st) as (x & Hx & Ex); [unfold seeding, seed_list in *; lia|].
    set (st1 := {| self := set_inp (self st) x (S (seed_index (self st)));
                   store := store st; stdout := stdout st; gen := gen st |}) in *.
    destruct (IH st1) as (st' & Hrun & Hidx & Hlist).
    { unfold seed_list in *. simpl. lia. }
    exists st'. simpl. rewrite Ex, Hrun.
    split; [|split; [exact Hidx|exact Hlist]].
    rewrite (drop_S _ _ _ Hx). reflexivity.
Qed.

(** With a population that is a list object of its own, an engine that has
    left the Seeding state never returns to it. *)
Lemma run_stays_mutating (cs : list call) :
  forall (st st' : state) (os : list (option str)),
  population (self st) <> seed (self st) ->
  ~ seeding st ->
  run cs st = Ok (os, st') ->
  ~ seeding st' /\ seed_list st' = seed_list st.
Proof.
  induction cs as [|c cs IH]; intros st st' os Hsep Hmut; simpl.
  - intros [= <- <-]. auto.
  - destruct (step c st) as [[o st1]|] eqn:E1; [|discriminate].
    destruct (run cs st1) as [[os1 st2]|] eqn:E2; [|discriminate].
    intros [= <- <-].
    destruct (step_cursor _ _ _ _ E1) as (Hs & Hp & Hm & _ & _).
    assert (Hlist : seed_list st1 = seed_list st).
    { destruct c as [|x]; simpl in E1.
      - destruct (fuzz st) as [[y st0]|] eqn:E; [|discriminate].
        injection E1 as <- <-.
        destruct (fuzz_cursor _ _ _ E) as (Hs' & _ & Hst & _).
        unfold seed_list. now rewrite Hs', Hst.
      - injection E1 as <- <-. now apply add_seed_seed_list_separate. }
    destruct (IH st1 st2 os1) as (Hmut2 & Hlist2); [congruence| |exact E2|].
    + unfold seeding in *. unfold seed_list in Hlist. rewrite Hlist. lia.
    + split; [exact Hmut2|congruence].
Qed.

(** After construction, whenever the seeds are exhausted, a candidate given
    to [add_seed] is what the next [fuzz] returns, as it is. *)
Lemma add_seed_is_dispensed (c : str) (st : state) :
  population (self st) = seed (self st) ->
  seed_index (self st) = length (seed_list st) ->
  ~ seeding st /\
  seeding (add_seed c st) /\
  exists st',
    fuzz (add_seed c st) = Ok (c, st') /\
    seed_index (self st') = S (seed_index (self st)).
Proof.
  intros Hal Hidx.
  assert (Hself : self (add_seed c st) = self st) by apply add_seed_frame.
  assert (Hseed : seeding (add_seed c st)).
  { unfold seeding. fold (seed_list (add_seed c st)).
    rewrite (add_seed_seed_list_aliased c st Hal), length_app, Hself. simpl. lia. }
  split; [unfold seeding; fold (seed_list st); lia|].
  split; [exact Hseed|].
  destruct (fuzz_seeding _ Hseed) as (x & Hx & Ex).
  rewrite (add_seed_seed_list_aliased c st Hal), Hself, Hidx in Hx.
  rewrite lookup_app_r, Nat.sub_diag in Hx by lia.
  injection Hx as <-.
  eexists. split; [exact Ex|]. reflexivity.
Qed.

(** C2 fails on the code at this input.  The engine is constructed from the
    seed list ["SELECT 1"].  The first [fuzz] dispenses the seed and leaves
    the cursor at the seed-list length: the engine is Mutating.
    [add_seed("foo")] then makes it Seeding again, and the next [fuzz]
    returns "foo" from under the cursor, unmutated, moving the cursor
    to 2. *)
Theorem add_seed_reopens_seeding :
  exists st0 st1 st3,
    boot [py "SELECT 1"] None None (rng_of []) = Ok st0 /\
    run [ProduceNext] st0 = Ok ([Some (py "SELECT 1")], st1) /\
    seed_index (self st1) = length (seed_list st1) /\
    ~ seeding st1 /\
    seeding (add_seed (py "foo") st1) /\
    run [AddSeed (py "foo"); ProduceNext] st1
    = Ok ([None; Some (py "foo")], st3) /\
    seed_index (self st3) = 2%nat.
Proof.
  eexists _, _, _. unfold boot. rewrite init_ok.
  split; [reflexivity|]. split; [reflexivity|]. split; [reflexivity|].
  split; [unfold seeding; simpl; lia|].
  split; [unfold seeding; simpl; lia|].
  split; reflexivity.
Qed.

(** ** The engine: [create_candidate] *)

Lemma mutators_cases (i : nat) (m : str -> M str) :
  mutators !! i = Some m ->
  m = delete_random_character \/ m = insert_random_character \/
  m = flip_random_character.
Proof.
  destruct i as [|[|[|i]]]; simpl; intros [= <-]; auto.
Qed.

Lemma generic_mutator_returns (m : str -> M str) (s : str) :
  m = delete_random_character \/ m = insert_random_character \/
  m = flip_random_character ->
  wf_str s -> returns (m s) wf_str.
Proof.
  intros [ -> | [ -> | -> ] ] Hs.
  - eapply returns_weaken; [apply delete_random_character_returns|].
    intros s' [H _]. auto.
  - eapply returns_weaken; [apply insert_random_character_returns|].
    intros s' [H _]. auto.
  - eapply returns_weaken; [apply (flip_random_character_returns s Hs)|].
    intros s' [H _]. auto.
Qed.

(** The loop of [create_candidate] applies one drawn operator per round. *)
Lemma for_range_applied (n : nat) :
  forall (s : str) (g : rng),
  wf_str s ->
  exists ms out g',
    length ms = n /\
    Forall (fun m => m = delete_random_character \/
                     m = insert_random_character \/
                     m = flip_random_character) ms /\
    applied ms s g out g' /\
    for_range n mutate s g = Ok (out, g') /\
    wf_str out.
Proof.
  induction n as [|n IH]; intros s g Hs.
  - exists [], s, g. repeat split; [constructor|constructor|exact Hs].
  - destruct (choice_spec mutators g ltac:(discriminate)) as (i & m & Em & Hm & Hi).
    pose proof (mutators_cases _ _ Hm) as Hcase.
    subst i.
    destruct (generic_mutator_returns m s Hcase Hs (advance g)) as (s1 & g2 & E1 & Hs1).
    destruct (IH s1 g2 Hs1) as (ms & out & g' & Hlen & Hall & Happ & Erun & Hout).
    exists (m :: ms), out, g'. repeat split.
    + simpl. now rewrite Hlen.
    + constructor; assumption.
    + eapply applied_cons; [exact Hm|exact Em|exact E1|exact Happ].
    + assert (Emut : mutate s g = Ok (s1, g2)).
      { unfold mutate. now rewrite (bind_ok _ _ _ _ _ Em). }
      change (for_range (S n) mutate s g)
        with (bind (mutate s) (fun c => for_range n mutate c) g).
      now rewrite (bind_ok _ _ _ _ _ Emut).
    + exact Hout.
Qed.

(** C7.  On a non-empty population, with [min_mutations <= max_mutations],
    [create_candidate] draws one member of the population with
    [random.choice], draws a trial count with
    [random.randint(min_mutations, max_mutations)], which lies between the
    two bounds, both included, and applies that many operators, one after
    the other, each drawn with [random.choice] from the registry of the
    three character-level operators and each applied to the output of the
    one before; it returns the last output.  The registry holds
    [delete_random_character], [insert_random_character] and
    [flip_random_character], in this order, and nothing else: a round on a
    tape whose head reads [k] applies the operator at position [k mod 3] of
    these three, after one draw.  The bounds are 2 and 10 when the
    constructor is given none. *)
Theorem create_candidate_applies_trials_generic_mutators
    (f : MyMutationFuzzer) (h : heap) (g : rng) :
  h (population f) <> [] ->
  Forall wf_str (h (population f)) ->
  min_mutations f <= max_mutations f ->
  (exists i candidate g1 trials g2 ms out g3,
     h (population f) !! i = Some candidate /\
     i = (peek g mod length (h (population f)))%nat /\
     choice (h (population f)) g = Ok (candidate, g1) /\
     randint (min_mutations f) (max_mutations f) g1 = Ok (trials, g2) /\
     trials = min_mutations f
              + Z.of_nat (peek g1 mod Z.to_nat (max_mutations f + 1 - min_mutations f)) /\
     min_mutations f <= trials <= max_mutations f /\
     length ms = Z.to_nat trials /\
     (0 <= min_mutations f -> Z.of_nat (length ms) = trials) /\
     Forall (fun m => m = delete_random_character \/
                      m = insert_random_character \/
                      m = flip_random_character) ms /\
     applied ms candidate g2 out g3 /\
     create_candidate f h g = Ok (out, g3)) /\
  (forall l f0, __init__ l None None = Ok f0 ->
     min_mutations f0 = 2 /\ max_mutations f0 = 10) /\
  length mutators = 3%nat /\
  (forall (s : str) (g0 : rng),
     exists m,
       [delete_random_character; insert_random_character; flip_random_character]
         !! (peek g0 mod 3)%nat = Some m /\
       mutate s g0 = m s (advance g0)).
Proof.
  intros Hne Hwf Hle. split; [|split; [|split]]; cycle 2.
  { reflexivity. }
  { intros s g0.
    destruct (choice_spec mutators g0 ltac:(discriminate)) as (i & m & Em & Hm & Hi).
    subst i. exists m. split; [exact Hm|].
    unfold mutate. now rewrite (bind_ok _ _ _ _ _ Em). }
  - destruct (choice_spec _ g Hne) as (i & c & Ec & Hc & Hi).
    destruct (randint_spec _ _ (advance g) Hle) as (trials & Et & Ht).
    assert (Hval : trials = min_mutations f
              + Z.of_nat (peek (advance g)
                          mod Z.to_nat (max_mutations f + 1 - min_mutations f))).
    { rewrite (randint_value _ _ _ Hle) in Et. now injection Et as <-. }
    assert (Hcw : wf_str c).
    { rewrite Forall_lookup in Hwf. exact (Hwf _ _ Hc). }
    destruct (for_range_applied (Z.to_nat trials) c (advance (advance g)) Hcw)
      as (ms & out & g3 & Hlen & Hall & Happ & Erun & _).
    exists i, c, (advance g), trials, (advance (advance g)), ms, out, g3.
    repeat split; try assumption; try lia.
    unfold create_candidate.
    now rewrite (bind_ok _ _ _ _ _ Ec), (bind_ok _ _ _ _ _ Et).
  - intros l f0. rewrite init_ok. intros [= <-]. split; reflexivity.
Qed.

(** ** The statements at concrete inputs *)

Section Instances.

#[local] Existing Instance Ascii.ops.

Lemma wf_select_1 : wf_str (py "SELECT 1").
Proof. unfold wf_str, wf_char, max_code_point. repeat constructor; simpl; lia. Defined.

(** Construction from an empty seed list with the bounds 5 and 1. *)
Lemma construction_never_fails_witness :
  heap_of [] 0%nat = [] /\
  exists f,
    __init__ 0%nat (Some 5) (Some 1) = Ok f /\
    seed f = 0%nat /\ population f = 0%nat /\ seed_index f = 0%nat /\
    min_mutations f = 5 /\ max_mutations f = 1 /\
    create_candidate f (heap_of []) (rng_of []) = Raise IndexError.
Proof.
  split; [reflexivity|].
  destruct (construction_never_fails (heap_of []) 0%nat (Some 5) (Some 1) (rng_of []))
    as (f & Ef & Hs & Hp & Hi & Hmn & Hmx & Hempty & _).
  exists f. repeat split; try assumption. apply Hempty. reflexivity.
Defined.

(** [fuzz] on the seed list ["SELECT 1"], with the cursor at 0 and at 1. *)
Lemma fuzz_seeds_then_mutates_witness :
  seeding (engine_at 0) /\
  (exists x,
     seed_list (engine_at 0) !! 0%nat = Some x /\
     fuzz (engine_at 0)
     = Ok (x, {| self := set_inp (self (engine_at 0)) x 1;
                 store := store (engine_at 0); stdout := []; gen := gen (engine_at 0) |})) /\
  ~ seeding (engine_at 1) /\
  (forall e,
     create_candidate (self (engine_at 1)) (store (engine_at 1)) (gen (engine_at 1))
     = Raise e ->
     fuzz (engine_at 1) = Raise e).
Proof.
  assert (H0 : seeding (engine_at 0)) by (unfold seeding; simpl; lia).
  assert (H1 : ~ seeding (engine_at 1)) by (unfold seeding; simpl; lia).
  split; [exact H0|].
  split; [exact (proj1 (fuzz_seeds_then_mutates (engine_at 0)) H0)|].
  split; [exact H1|].
  exact (proj2 (proj1 (proj2 (fuzz_seeds_then_mutates (engine_at 1))) H1)).
Defined.

(** Construction and first [fuzz] on the empty seed list. *)
Lemma empty_seed_list_raises_on_first_fuzz_witness :
  heap_of [] 0%nat = [] /\
  exists f,
    __init__ 0%nat None None = Ok f /\
    fuzz {| self := f; store := heap_of []; stdout := []; gen := rng_of [] |}
    = Raise IndexError.
Proof.
  split; [reflexivity|].
  destruct (empty_seed_list_raises_on_first_fuzz (heap_of []) 0%nat None None []
              (rng_of []) eq_refl) as (f & Ef & _ & _ & _ & _ & Hfuzz).
  exists f. split; [exact Ef|exact Hfuzz].
Defined.

(** [create_candidate] on the population ["SELECT 1"] with the default
    bounds. *)
Lemma create_candidate_applies_trials_generic_mutators_witness :
  let f := self (engine_at 1) in
  let h := store (engine_at 1) in
  h (population f) <> [] /\
  Forall wf_str (h (population f)) /\
  min_mutations f <= max_mutations f /\
  exists candidate trials (ms : list (str -> M str)) out g3,
    candidate = py "SELECT 1" /\
    2 <= trials <= 10 /\
    length ms = Z.to_nat trials /\
    create_candidate f h (gen (engine_at 1)) = Ok (out, g3).
Proof.
  cbv zeta.
  assert (Hne : store (engine_at 1) (population (self (engine_at 1))) <> [])
    by (simpl; discriminate).
  assert (Hwf : Forall wf_str (store (engine_at 1) (population (self (engine_at 1)))))
    by (simpl; constructor; [exact wf_select_1|constructor]).
  assert (Hle : min_mutations (self (engine_at 1)) <= max_mutations (self (engine_at 1)))
    by (simpl; lia).
  split; [exact Hne|]. split; [exact Hwf|]. split; [exact Hle|].
  destruct (create_candidate_applies_trials_generic_mutators
              (self (engine_at 1)) (store (engine_at 1)) (gen (engine_at 1))
              Hne Hwf Hle)
    as ((i & c & g1 & trials & g2 & ms & out & g3
         & Hc & _ & _ & _ & _ & Ht & Hlen & _ & _ & _ & E) & _).
  exists c, trials, ms, out, g3.
  split.
  - simpl in Hc. destruct i as [|i]; simpl in Hc; [|discriminate].
    injection Hc as <-. reflexivity.
  - split; [exact Ht|]. split; [exact Hlen|exact E].
Defined.

End Instances.

(** * Further properties of the operators and of the engine *)

(** ** What the character-level operators return *)

Lemma randint_0 (n : nat) (g : rng) :
  randint 0 (Z.of_nat n) g = Ok (Z.of_nat (peek g mod S n), advance g).
Proof.
  rewrite randint_value by lia.
  replace (Z.to_nat (Z.of_nat n + 1 - 0)) with (S n) by lia. reflexivity.
Qed.

Lemma len_pred (s : str) : s <> [] -> len s - 1 = Z.of_nat (length s - 1).
Proof. destruct s; [congruence|]. unfold len. simpl length. lia. Qed.

Lemma delete_random_character_value (s : str) (g : rng) :
  s <> [] ->
  delete_random_character s g
  = Ok (take (peek g mod length s) s ++ drop (S (peek g mod length s)) s, advance g).
Proof.
  intros Hne. rewrite (delete_random_character_nonempty s Hne), (len_pred s Hne).
  rewrite (bind_ok _ _ _ _ _ (randint_0 _ g)).
  assert (Hlen : S (length s - 1) = length s) by (destruct s; [congruence|simpl; lia]).
  rewrite Hlen. unfold ret. rewrite Nat2Z.id.
  replace (Z.to_nat (Z.of_nat (peek g mod length s) + 1)) with (S (peek g mod length s))
    by lia.
  reflexivity.
Qed.

Lemma insert_random_character_value (s : str) (g : rng) :
  insert_random_character s g
  = Ok (take (peek g mod S (length s)) s
          ++ N.of_nat (32 + peek (advance g) mod 95)
          :: drop (peek g mod S (length s)) s,
        advance (advance g)).
Proof.
  unfold insert_random_character, len.
  rewrite (bind_ok _ _ _ _ _ (randint_0 _ g)).
  assert (Ecode : randrange 32 127 (advance g)
                  = Ok (32 + Z.of_nat (peek (advance g) mod 95), advance (advance g)))
    by reflexivity.
  rewrite (bind_ok _ _ _ _ _ Ecode).
  pose proof (Nat.mod_upper_bound (peek (advance g)) 95 ltac:(lia)) as Hr.
  destruct (chr_spec (32 + Z.of_nat (peek (advance g) mod 95))) as [Echr _];
    [unfold max_code_point; lia|].
  rewrite (bind_ok _ _ _ _ _ (lift_ok _ _ _ Echr)).
  unfold ret. rewrite Nat2Z.id.
  replace (Z.to_N (32 + Z.of_nat (peek (advance g) mod 95)))
    with (N.of_nat (32 + peek (advance g) mod 95)) by lia.
  reflexivity.
Qed.

Lemma lxor_bit_quotient (c k : Z) :
  0 <= c -> 0 <= k <= 6 -> Z.lxor c (Z.shiftl 1 k) / 128 = c / 128.
Proof.
  intros Hc Hk.
  assert (Hb : 0 <= Z.shiftl 1 k < 128).
  { rewrite Z.shiftl_1_l. split; [apply Z.pow_nonneg; lia|].
    assert (H6 : 2 ^ k <= 2 ^ 6) by (apply Z.pow_le_mono_r; lia).
    change (2 ^ 6) with 64 in H6. lia. }
  change 128 with (2 ^ 7).
  rewrite <- !Z.shiftr_div_pow2 by lia.
  rewrite Z.shiftr_lxor.
  replace (Z.shiftr (Z.shiftl 1 k) 7) with 0; [apply Z.lxor_0_r|].
  rewrite Z.shiftr_div_pow2 by lia. symmetry. apply Z.div_small.
  change (2 ^ 7) with 128. lia.
Qed.

Lemma lxor_bit_changes (c k : Z) : 0 <= k -> Z.lxor c (Z.shiftl 1 k) <> c.
Proof.
  intros Hk E.
  assert (Hz : Z.shiftl 1 k = 0).
  { assert (H : Z.shiftl 1 k = Z.lxor c (Z.lxor c (Z.shiftl 1 k))).
    { now rewrite <- Z.lxor_assoc, Z.lxor_nilpotent, Z.lxor_0_l. }
    rewrite E, Z.lxor_nilpotent in H. exact H. }
  rewrite Z.shiftl_1_l in Hz.
  pose proof (Z.pow_pos_nonneg 2 k ltac:(lia) Hk). lia.
Qed.

Lemma lxor_bit_twice (c b : Z) : Z.lxor (Z.lxor c b) b = c.
Proof. now rewrite Z.lxor_assoc, Z.lxor_nilpotent, Z.lxor_0_r. Qed.

(** The character [flip_random_character] writes over [c] for the draw [r]. *)
Lemma flip_random_character_value (s : list char) (g : rng) (c : char) :
  wf_str s ->
  s !! (peek g mod length s)%nat = Some c ->
  flip_random_character s g
  = Ok (<[(peek g mod length s)%nat :=
            Z.to_N (Z.lxor (ord c) (Z.shiftl 1 (Z.of_nat (peek (advance g) mod 7))))]> s,
        advance (advance g)).
Proof.
  intros Hs Hc.
  assert (Hne : s <> []) by (intros ->; discriminate).
  pose proof (lookup_lt_Some _ _ _ Hc) as Hlt.
  rewrite (flip_random_character_nonempty s Hne), (len_pred s Hne).
  rewrite (bind_ok _ _ _ _ _ (randint_0 _ g)).
  assert (Hlen : S (length s - 1) = length s) by lia.
  rewrite Hlen, Nat2Z.id.
  rewrite (bind_ok _ _ _ _ _ (lift_ok _ _ _ (getitem_ok _ _ _ Hc))).
  rewrite (bind_ok _ _ _ _ _ (randint_0 6 (advance g))).
  pose proof (Nat.mod_upper_bound (peek (advance g)) 7 ltac:(lia)) as Hk.
  assert (Hcw : wf_char c).
  { unfold wf_str in Hs. rewrite Forall_lookup in Hs. exact (Hs _ _ Hc). }
  destruct (chr_spec (Z.lxor (ord c) (Z.shiftl 1 (Z.of_nat (peek (advance g) mod 7)))))
    as [Echr _].
  { apply flip_bit_in_range; [|lia]. unfold wf_char, ord in *. lia. }
  rewrite (bind_ok _ _ _ _ _ (lift_ok _ _ _ Echr)).
  unfold ret. rewrite insert_take_drop by exact Hlt.
  replace (Z.to_nat (Z.of_nat (peek g mod length s) + 1)) with (S (peek g mod length s))
    by lia.
  reflexivity.
Qed.

(** X1.  On a non-empty string, [delete_random_character] removes exactly
    the character at one position of the string, chosen by the draw; the
    characters before and after it are kept in their order, and the result
    is one character shorter. *)
Theorem delete_random_character_removes_one (s : str) (g : rng) :
  s <> [] ->
  exists pos g',
    (pos < length s)%nat /\
    delete_random_character s g = Ok (take pos s ++ drop (S pos) s, g') /\
    S (length (take pos s ++ drop (S pos) s)) = length s.
Proof.
  intros Hne.
  assert (Hpos : (peek g mod length s < length s)%nat).
  { apply Nat.mod_upper_bound. destruct s; [congruence|discriminate]. }
  exists (peek g mod length s)%nat, (advance g).
  split; [exact Hpos|]. split; [apply (delete_random_character_value s g Hne)|].
  rewrite length_app, length_take, length_drop. lia.
Qed.

(** X2.  [insert_random_character] puts one character with a code from 32
    to 126 at a position from 0 to the length of the string, the ends
    included; the characters of the input are kept in their order and the
    result is one character longer.  It never raises. *)
Theorem insert_random_character_adds_one_printable (s : str) (g : rng) :
  exists pos c g',
    (pos <= length s)%nat /\
    (32 <= c <= 126)%N /\
    insert_random_character s g = Ok (take pos s ++ c :: drop pos s, g') /\
    length (take pos s ++ c :: drop pos s) = S (length s).
Proof.
  pose proof (Nat.mod_upper_bound (peek g) (S (length s)) ltac:(lia)) as Hpos.
  pose proof (Nat.mod_upper_bound (peek (advance g)) 95 ltac:(lia)) as Hc.
  exists (peek g mod S (length s))%nat, (N.of_nat (32 + peek (advance g) mod 95)),
    (advance (advance g)).
  split; [|split; [|split; [apply insert_random_character_value|]]].
  - lia.
  - lia.
  - set (pos := (peek g mod S (length s))%nat) in *.
    rewrite length_app, length_take. cbn [length]. rewrite length_drop. lia.
Qed.

(** The position, the bit and the characters of a flip. *)
Lemma flip_random_character_shape (s : list char) (g : rng) :
  s <> [] ->
  wf_str s ->
  exists pos k c c' g',
    (pos < length s)%nat /\
    0 <= k <= 6 /\
    s !! pos = Some c /\
    ord c' = Z.lxor (ord c) (2 ^ k) /\
    wf_char c' /\
    c' <> c /\
    flip_random_character s g = Ok (<[pos := c']> s, g').
Proof.
  intros Hne Hs.
  assert (Hpos : (peek g mod length s < length s)%nat).
  { apply Nat.mod_upper_bound. destruct s; [congruence|discriminate]. }
  destruct (lookup_lt_is_Some_2 s _ Hpos) as [c Hc].
  pose proof (Nat.mod_upper_bound (peek (advance g)) 7 ltac:(lia)) as Hk.
  set (k := Z.of_nat (peek (advance g) mod 7)).
  assert (Hcw : 0 <= ord c <= max_code_point).
  { unfold wf_str in Hs. rewrite Forall_lookup in Hs.
    pose proof (Hs _ _ Hc) as H. unfold wf_char in H. unfold ord in *. lia. }
  pose proof (flip_bit_in_range (ord c) k Hcw ltac:(lia)) as Hrange.
  set (c' := Z.to_N (Z.lxor (ord c) (Z.shiftl 1 k))).
  assert (Hord : ord c' = Z.lxor (ord c) (2 ^ k)).
  { unfold c', ord. rewrite Z2N.id by exact (proj1 Hrange). now rewrite Z.shiftl_1_l. }
  assert (Hdiff : c' <> c).
  { intros E. rewrite E, <- Z.shiftl_1_l in Hord.
    symmetry in Hord. revert Hord. apply lxor_bit_changes. lia. }
  exists (peek g mod length s)%nat, k, c, c', (advance (advance g)).
  split; [exact Hpos|]. split; [lia|]. split; [exact Hc|].
  split; [exact Hord|]. split.
  { unfold wf_char. rewrite Hord, <- Z.shiftl_1_l. exact (proj2 Hrange). }
  split; [exact Hdiff|].
  exact (flip_random_character_value s g c Hs Hc).
Qed.

(** X3.  On a non-empty string, [flip_random_character] changes the
    character at one position and nothing else: the code of the new
    character is the code of the old one with one of the bits 0 to 6
    flipped, so the new character differs from the old one, and the result
    differs from the input and has its length. *)
Theorem flip_random_character_flips_one_bit (s : list char) (g : rng) :
  s <> [] ->
  wf_str s ->
  exists pos k c c' g',
    (pos < length s)%nat /\
    0 <= k <= 6 /\
    s !! pos = Some c /\
    ord c' = Z.lxor (ord c) (2 ^ k) /\
    c' <> c /\
    flip_random_character s g = Ok (<[pos := c']> s, g') /\
    (forall j, j <> pos -> <[pos := c']> s !! j = s !! j) /\
    <[pos := c']> s <> s /\
    length (<[pos := c']> s) = length s.
Proof.
  intros Hne Hs.
  destruct (flip_random_character_shape s g Hne Hs)
    as (pos & k & c & c' & g' & Hpos & Hk & Hc & Hord & _ & Hdiff & E).
  exists pos, k, c, c', g'.
  split; [exact Hpos|]. split; [exact Hk|]. split; [exact Hc|].
  split; [exact Hord|]. split; [exact Hdiff|]. split; [exact E|].
  split; [intros j Hj; now apply list_lookup_insert_ne|].
  split; [|apply length_insert].
  intros E'. apply (f_equal (fun l => l !! pos)) in E'.
  rewrite list_lookup_insert_eq in E' by exact Hpos. congruence.
Qed.

(** X4.  Flipping is undone by flipping again with the same draws:
    when [flip_random_character] turns [s] into [s'], it turns [s'] back
    into [s] on the same draws. *)
Theorem flip_random_character_twice (s : list char) (g : rng) :
  wf_str s ->
  exists s' g',
    flip_random_character s g = Ok (s', g') /\
    flip_random_character s' g = Ok (s, g').
Proof.
  intros Hs. destruct (decide (s = [])) as [->|Hne].
  { exists [], g. split; reflexivity. }
  assert (Hpos : (peek g mod length s < length s)%nat).
  { apply Nat.mod_upper_bound. destruct s; [congruence|discriminate]. }
  destruct (lookup_lt_is_Some_2 s _ Hpos) as [c Hc].
  pose proof (Nat.mod_upper_bound (peek (advance g)) 7 ltac:(lia)) as Hk.
  set (b := Z.shiftl 1 (Z.of_nat (peek (advance g) mod 7))).
  assert (Hcw : 0 <= ord c <= max_code_point).
  { unfold wf_str in Hs. rewrite Forall_lookup in Hs.
    pose proof (Hs _ _ Hc) as H. unfold wf_char in H. unfold ord in *. lia. }
  assert (Hrange : 0 <= Z.lxor (ord c) b <= max_code_point)
    by (apply flip_bit_in_range; [exact Hcw|lia]).
  set (c' := Z.to_N (Z.lxor (ord c) b)).
  assert (Hord : ord c' = Z.lxor (ord c) b).
  { unfold c', ord. now rewrite Z2N.id by exact (proj1 Hrange). }
  set (s' := <[(peek g mod length s)%nat := c']> s).
  assert (Hs' : wf_str s').
  { apply Forall_insert; [exact Hs|]. unfold wf_char. rewrite Hord. lia. }
  assert (Hlen : length s' = length s) by apply length_insert.
  assert (Hc' : s' !! (peek g mod length s')%nat = Some c').
  { rewrite Hlen. unfold s'. now apply list_lookup_insert_eq. }
  exists s', (advance (advance g)).
  split; [exact (flip_random_character_value s g c Hs Hc)|].
  rewrite (flip_random_character_value s' g c' Hs' Hc').
  fold b. rewrite Hord, lxor_bit_twice. unfold ord. rewrite N2Z.id.
  rewrite Hlen. unfold s'. rewrite list_insert_insert_eq.
  now rewrite list_insert_id.
Qed.

(** X5.  A deletion can undo any insertion: whatever
    [insert_random_character] returns on [s], some draw makes
    [delete_random_character] return [s] from it. *)
Theorem delete_undoes_insert (s : str) (g : rng) :
  exists s' g' g0 g1,
    insert_random_character s g = Ok (s', g') /\
    delete_random_character s' g0 = Ok (s, g1).
Proof.
  pose proof (Nat.mod_upper_bound (peek g) (S (length s)) ltac:(lia)) as Hpos.
  set (pos := (peek g mod S (length s))%nat) in *.
  set (c := N.of_nat (32 + peek (advance g) mod 95)).
  set (s' := take pos s ++ c :: drop pos s).
  set (g0 := {| tape := fun _ => pos; head := 0 |}).
  exists s', (advance (advance g)), g0, (advance g0).
  split; [apply insert_random_character_value|].
  assert (Hne : s' <> []) by (unfold s'; destruct (take pos s); discriminate).
  assert (Hlen : length s' = S (length s)).
  { unfold s'. rewrite length_app, length_take. simpl length. rewrite length_drop. lia. }
  rewrite (delete_random_character_value s' g0 Hne).
  assert (Hmod : (peek g0 mod length s' = pos)%nat).
  { rewrite Hlen. unfold peek, g0. cbn [tape head]. apply Nat.mod_small. lia. }
  rewrite Hmod. do 2 f_equal. unfold s'.
  assert (Htake : length (take pos s) = pos) by (rewrite length_take; lia).
  rewrite take_app_length' by (symmetry; exact Htake).
  rewrite drop_app_ge by lia.
  rewrite Htake. replace (S pos - pos)%nat with 1%nat by lia.
  simpl drop. rewrite drop_0. apply take_drop.
Qed.

(** ** One mutation step and the candidates *)

Lemma is_ascii_splice (s mid : str) (i j : nat) :
  is_ascii s -> is_ascii mid -> is_ascii (take i s ++ mid ++ drop j s).
Proof.
  unfold is_ascii. intros Hs Hm.
  apply Forall_app; split; [now apply Forall_take|].
  apply Forall_app; split; [exact Hm|now apply Forall_drop].
Qed.

Lemma lxor_bit_ascii (c k : Z) :
  0 <= c < 128 -> 0 <= k <= 6 -> Z.lxor c (2 ^ k) < 128.
Proof.
  intros Hc Hk. rewrite <- Z.shiftl_1_l.
  pose proof (lxor_bit_quotient c k ltac:(lia) Hk) as Hq.
  rewrite (Z.div_small c 128) in Hq by lia.
  assert (Hnn : 0 <= Z.lxor c (Z.shiftl 1 k)).
  { apply Z.lxor_nonneg. rewrite Z.shiftl_1_l.
    pose proof (Z.pow_nonneg 2 k ltac:(lia)). lia. }
  pose proof (Z.mod_pos_bound (Z.lxor c (Z.shiftl 1 k)) 128 ltac:(lia)).
  pose proof (Z.div_mod (Z.lxor c (Z.shiftl 1 k)) 128 ltac:(lia)).
  lia.
Qed.

(** What any of the three registered operators does to a string. *)
Lemma generic_mutator_step (m : str -> M str) (s : list char) (g : rng) :
  m = delete_random_character \/ m = insert_random_character \/
  m = flip_random_character ->
  wf_str s ->
  exists s' g',
    m s g = Ok (s', g') /\
    wf_str s' /\
    (length s - 1 <= length s' <= length s + 1)%nat /\
    (is_ascii s -> is_ascii s') /\
    (s <> [] -> s' <> s).
Proof.
  intros [ -> | [ -> | -> ] ] Hs.
  - destruct (decide (s = [])) as [->|Hne].
    { exists [], g. repeat split; auto; simpl; lia. }
    assert (Hpos : (peek g mod length s < length s)%nat).
    { apply Nat.mod_upper_bound. destruct s; [congruence|discriminate]. }
    eexists _, _. split; [apply (delete_random_character_value s g Hne)|].
    assert (Hlen : S (length (take (peek g mod length s) s
                              ++ drop (S (peek g mod length s)) s)) = length s).
    { rewrite length_app, length_take, length_drop. lia. }
    split.
    { apply (wf_str_splice s [] (peek g mod length s) (S (peek g mod length s)) Hs).
      constructor. }
    split; [lia|]. split.
    { intros Ha.
      apply (is_ascii_splice s [] (peek g mod length s) (S (peek g mod length s)) Ha).
      constructor. }
    intros _ E. rewrite E in Hlen. lia.
  - pose proof (Nat.mod_upper_bound (peek g) (S (length s)) ltac:(lia)) as Hpos.
    pose proof (Nat.mod_upper_bound (peek (advance g)) 95 ltac:(lia)) as Hc.
    set (pos := (peek g mod S (length s))%nat) in *.
    set (c := N.of_nat (32 + peek (advance g) mod 95)).
    assert (Hlen : length (take pos s ++ c :: drop pos s) = S (length s)).
    { rewrite length_app, length_take. cbn [length]. rewrite length_drop. lia. }
    eexists _, _. split; [apply insert_random_character_value|].
    fold pos c.
    split.
    { apply (wf_str_splice s [c] pos pos Hs). constructor; [|constructor].
      unfold wf_char, ord, max_code_point, c. lia. }
    split; [lia|]. split.
    { intros Ha. apply (is_ascii_splice s [c] pos pos Ha). constructor; [|constructor].
      unfold c. lia. }
    intros _ E. rewrite E in Hlen. lia.
  - destruct (decide (s = [])) as [->|Hne].
    { exists [], g. repeat split; auto; simpl; lia. }
    destruct (flip_random_character_shape s g Hne Hs)
      as (pos & k & c & c' & g' & Hpos & Hk & Hc & Hord & Hwf & Hdiff & E).
    exists (<[pos := c']> s), g'. split; [exact E|].
    split; [apply Forall_insert; assumption|].
    split; [rewrite length_insert; lia|]. split.
    + intros Ha. apply Forall_insert; [exact Ha|].
      unfold is_ascii in Ha. rewrite Forall_lookup in Ha.
      pose proof (Ha _ _ Hc) as Hc7. cbv beta in Hc7.
      pose proof (lxor_bit_ascii (ord c) k ltac:(unfold ord; lia) Hk) as Hlt.
      rewrite <- Hord in Hlt. unfold ord in Hlt. lia.
    + intros _ E'.
      pose proof (list_lookup_insert_eq s pos c' Hpos) as Hl.
      assert (Hl' : s !! pos = Some c').
      { rewrite <- Hl. f_equal. symmetry. exact E'. }
      congruence.
Qed.

(** X6.  One call of [mutate] on a string of code points never raises; it
    changes the length by at most one, returns a string that differs from a
    non-empty input, and keeps a string of 7-bit characters within the
    7-bit characters. *)
Theorem mutate_changes_a_little (s : list char) (g : rng) :
  wf_str s ->
  exists s' g',
    mutate s g = Ok (s', g') /\
    wf_str s' /\
    (length s - 1 <= length s' <= length s + 1)%nat /\
    (is_ascii s -> is_ascii s') /\
    (s <> [] -> s' <> s).
Proof.
  intros Hs.
  destruct (choice_spec mutators g ltac:(discriminate)) as (i & m & Em & Hm & _).
  destruct (generic_mutator_step m s (advance g) (mutators_cases _ _ Hm) Hs)
    as (s' & g' & E & Hrest).
  exists s', g'. split; [|exact Hrest].
  unfold mutate. now rewrite (bind_ok _ _ _ _ _ Em).
Qed.

Lemma for_range_mutate_bounds (n : nat) :
  forall (s : list char) (g : rng),
  wf_str s ->
  exists out g',
    for_range n mutate s g = Ok (out, g') /\
    wf_str out /\
    (length s - n <= length out <= length s + n)%nat /\
    (is_ascii s -> is_ascii out).
Proof.
  induction n as [|n IH]; intros s g Hs.
  - exists s, g. repeat split; auto; lia.
  - destruct (choice_spec mutators g ltac:(discriminate)) as (i & m & Em & Hm & _).
    destruct (generic_mutator_step m s (advance g) (mutators_cases _ _ Hm) Hs)
      as (s1 & g1 & E1 & Hs1 & Hlen1 & Ha1 & _).
    destruct (IH s1 g1 Hs1) as (out & g' & Erun & Hout & Hlen & Ha).
    exists out, g'. split; [|split; [exact Hout|split; [lia|auto]]].
    assert (Emut : mutate s g = Ok (s1, g1)).
    { unfold mutate. now rewrite (bind_ok _ _ _ _ _ Em). }
    change (for_range (S n) mutate s g)
      with (bind (mutate s) (fun c => for_range n mutate c) g).
    now rewrite (bind_ok _ _ _ _ _ Emut).
Qed.

(** X7.  With a non-empty population and [min_mutations <= max_mutations],
    [create_candidate] never raises, and what it returns stays close to the
    member that [random.choice] drew, the one at the position the first
    draw gives: the result is that member after as many rounds of [mutate]
    as [random.randint] drew, the lengths differ by at most that number of
    rounds, hence by at most [max_mutations], and a member of 7-bit
    characters gives a candidate of 7-bit characters. *)
Theorem create_candidate_stays_close
    (f : MyMutationFuzzer) (h : heap) (g : rng) :
  h (population f) <> [] ->
  Forall wf_str (h (population f)) ->
  min_mutations f <= max_mutations f ->
  exists i candidate g1 trials g2 out g',
    i = (peek g mod length (h (population f)))%nat /\
    h (population f) !! i = Some candidate /\
    choice (h (population f)) g = Ok (candidate, g1) /\
    randint (min_mutations f) (max_mutations f) g1 = Ok (trials, g2) /\
    min_mutations f <= trials <= max_mutations f /\
    for_range (Z.to_nat trials) mutate candidate g2 = Ok (out, g') /\
    create_candidate f h g = Ok (out, g') /\
    wf_str out /\
    (length candidate - Z.to_nat trials <= length out
     <= length candidate + Z.to_nat trials)%nat /\
    (length candidate - Z.to_nat (max_mutations f) <= length out
     <= length candidate + Z.to_nat (max_mutations f))%nat /\
    (is_ascii candidate -> is_ascii out).
Proof.
  intros Hne Hwf Hle.
  destruct (choice_spec _ g Hne) as (i & c & Ec & Hc & Hi).
  destruct (randint_spec _ _ (advance g) Hle) as (trials & Et & Ht).
  assert (Hcw : wf_str c).
  { rewrite Forall_lookup in Hwf. exact (Hwf _ _ Hc). }
  destruct (for_range_mutate_bounds (Z.to_nat trials) c (advance (advance g)) Hcw)
    as (out & g' & Erun & Hout & Hlen & Ha).
  exists i, c, (advance g), trials, (advance (advance g)), out, g'.
  split; [exact Hi|]. split; [exact Hc|]. split; [exact Ec|].
  split; [exact Et|]. split; [exact Ht|]. split; [exact Erun|]. split.
  { unfold create_candidate.
    now rewrite (bind_ok _ _ _ _ _ Ec), (bind_ok _ _ _ _ _ Et). }
  split; [exact Hout|]. split; [exact Hlen|]. split; [lia|exact Ha].
Qed.

(** X8.  When [max_mutations] is zero or negative (and not below
    [min_mutations]), [create_candidate] applies no operator: it returns a
    member of the population as it is. *)
Theorem create_candidate_without_trials
    (f : MyMutationFuzzer) (h : heap) (g : rng) :
  h (population f) <> [] ->
  min_mutations f <= max_mutations f ->
  max_mutations f <= 0 ->
  exists i candidate g',
    h (population f) !! i = Some candidate /\
    create_candidate f h g = Ok (candidate, g').
Proof.
  intros Hne Hle Hmax.
  destruct (choice_spec _ g Hne) as (i & c & Ec & Hc & _).
  destruct (randint_spec _ _ (advance g) Hle) as (trials & Et & Ht).
  exists i, c, (advance (advance g)). split; [exact Hc|].
  unfold create_candidate.
  rewrite (bind_ok _ _ _ _ _ Ec), (bind_ok _ _ _ _ _ Et).
  replace (Z.to_nat trials) with 0%nat by lia. reflexivity.
Qed.

(** ** Runs of the engine *)

(** A run of [n] calls of [fuzz] that ends where the seeds are exhausted. *)
Lemma run_seeding (n : nat) :
  forall (st : state),
  (seed_index (self st) + n = length (seed_list st))%nat ->
  exists st',
    run (replicate n ProduceNext) st
    = Ok (map Some (drop (seed_index (self st)) (seed_list st)), st') /\
    store st' = store st /\ gen st' = gen st /\ stdout st' = stdout st /\
    seed (self st') = seed (self st) /\
    population (self st') = population (self st) /\
    seed_index (self st') = length (seed_list st).
Proof.
  induction n as [|n IH]; intros st Hn.
  - exists st. simpl. rewrite drop_ge by lia. repeat split. lia.
  - destruct (fuzz_seeding st) as (x & Hx & Ex); [unfold seeding, seed_list in *; lia|].
    set (st1 := {| self := set_inp (self st) x (S (seed_index (self st)));
                   store := store st; stdout := stdout st; gen := gen st |}) in *.
    destruct (IH st1) as (st' & Hrun & Hstore & Hgen & Hout & Hseed & Hpop & Hidx).
    { unfold seed_list in *. simpl. lia. }
    exists st'. simpl. rewrite Ex, Hrun.
    split; [|repeat split; assumption].
    rewrite (drop_S _ _ _ Hx). reflexivity.
Qed.

(** X9.  A new engine hands out its seeds first: the first [len(seed)]
    calls of [fuzz] return the seeds in their order, unchanged, and draw no
    random value; after them the engine is no longer seeding, and its seed
    list and population are as they were. *)
Theorem new_engine_dispenses_seeds_in_order
    (seeds : list str) (mn mx : option Z) (g : rng) :
  exists st0 st',
    boot seeds mn mx g = Ok st0 /\
    run (replicate (length seeds) ProduceNext) st0 = Ok (map Some seeds, st') /\
    gen st' = g /\
    seed_list st' = seeds /\
    population_list st' = seeds /\
    seed_index (self st') = length seeds /\
    ~ seeding st'.
Proof.
  unfold boot. rewrite init_ok. eexists.
  match goal with |- exists st', Ok ?s = _ /\ _ => set (st0 := s) end.
  destruct (run_seeding (length seeds) st0 eq_refl)
    as (st' & Hrun & Hstore & Hgen & _ & Hseed & Hpop & Hidx).
  exists st'. split; [reflexivity|]. split; [exact Hrun|]. split; [exact Hgen|].
  unfold seed_list, population_list, seeding. rewrite Hstore, Hseed, Hpop, Hidx.
  repeat split. simpl. lia.
Qed.

Lemma create_candidate_usable (st : state) :
  usable st ->
  exists out g', create_candidate (self st) (store st) (gen st) = Ok (out, g').
Proof.
  intros (Hne & Hwf & Hle). unfold population_list in *.
  destruct (choice_spec _ (gen st) Hne) as (i & c & Ec & Hc & _).
  destruct (randint_spec _ _ (advance (gen st)) Hle) as (trials & Et & Ht).
  assert (Hcw : wf_str c).
  { rewrite Forall_lookup in Hwf. exact (Hwf _ _ Hc). }
  destruct (for_range_mutate_bounds (Z.to_nat trials) c (advance (advance (gen st))) Hcw)
    as (out & g' & Erun & _).
  exists out, g'. unfold create_candidate.
  now rewrite (bind_ok _ _ _ _ _ Ec), (bind_ok _ _ _ _ _ Et).
Qed.

Lemma step_usable (c : call) (st : state) :
  usable st -> wf_call c ->
  exists o st', step c st = Ok (o, st') /\ usable st'.
Proof.
  intros Hu Hc. destruct c as [|x]; simpl.
  - assert (Hkeep : forall st' y, fuzz st = Ok (y, st') -> usable st').
    { intros st' y E. destruct (fuzz_cursor _ _ _ E) as (_ & Hp & Hst & _).
      destruct Hu as (Hne & Hwf & Hle). unfold usable, population_list in *.
      rewrite Hp, Hst. split; [exact Hne|]. split; [exact Hwf|].
      unfold fuzz in E. destruct (decide _).
      - destruct (getitem _ _); [|discriminate]. now injection E as <- <-.
      - destruct (create_candidate _ _ _) as [[z g']|]; [|discriminate].
        now injection E as <- <-. }
    destruct (decide (seeding st)) as [Hs|Hs].
    + destruct (fuzz_seeding st Hs) as (y & _ & E).
      rewrite E. eexists _, _. split; [reflexivity|]. exact (Hkeep _ _ E).
    + destruct (create_candidate_usable st Hu) as (out & g' & Ecc).
      pose proof (fuzz_mutating st Hs) as E. rewrite Ecc in E.
      rewrite E. eexists _, _. split; [reflexivity|]. exact (Hkeep _ _ E).
  - eexists _, _. split; [reflexivity|].
    destruct Hu as (Hne & Hwf & Hle).
    destruct (add_seed_population x st) as (Epop & _).
    destruct (add_seed_frame x st) as (Eself & _).
    unfold usable. rewrite Epop, Eself. split; [|split; [|exact Hle]].
    + destruct (population_list st); discriminate.
    + apply Forall_app. split; [exact Hwf|]. constructor; [exact Hc|constructor].
Qed.

Lemma run_usable (cs : list call) :
  forall (st : state),
  usable st -> Forall wf_call cs ->
  exists os st', run cs st = Ok (os, st') /\ length os = length cs /\ usable st'.
Proof.
  induction cs as [|c cs IH]; intros st Hu Hcs.
  - exists [], st. split; [reflexivity|]. split; [reflexivity|exact Hu].
  - inversion Hcs as [|? ? Hc Hcs']; subst.
    destruct (step_usable c st Hu Hc) as (o & st1 & E1 & Hu1).
    destruct (IH st1 Hu1 Hcs') as (os & st' & E2 & Hlen & Hu').
    exists (o :: os), st'. simpl. rewrite E1, E2.
    split; [reflexivity|]. split; [simpl; now rewrite Hlen|exact Hu'].
Qed.

(** X10.  An engine constructed from a non-empty seed list with
    [min_mutations <= max_mutations] never raises: every sequence of
    [fuzz] and [add_seed] calls runs to its end and every call of [fuzz]
    returns a string. *)
Theorem valid_engine_never_raises
    (seeds : list str) (mn mx : option Z) (g : rng) (cs : list call) :
  seeds <> [] ->
  Forall wf_str seeds ->
  default 2 mn <= default 10 mx ->
  Forall wf_call cs ->
  exists st0 os st',
    boot seeds mn mx g = Ok st0 /\
    run cs st0 = Ok (os, st') /\
    length os = length cs.
Proof.
  intros Hne Hwf Hle Hcs. unfold boot. rewrite init_ok. eexists.
  match goal with |- exists os st', Ok ?s = _ /\ _ => set (st0 := s) end.
  assert (Hu : usable st0) by (repeat split; assumption).
  destruct (run_usable cs st0 Hu Hcs) as (os & st' & E & Hlen & _).
  exists os, st'. repeat split; assumption.
Qed.

(** X11.  The population only grows at its end: after any sequence of
    calls it is the population before the calls followed by the candidates
    given to [add_seed], in call order, duplicates included; [fuzz] never
    changes it. *)
Theorem run_appends_added_seeds (cs : list call) :
  forall (st st' : state) (os : list (option str)),
  run cs st = Ok (os, st') ->
  population (self st') = population (self st) /\
  population_list st' = population_list st ++ added_seeds cs.
Proof.
  induction cs as [|c cs IH]; intros st st' os; simpl.
  - intros [= <- <-]. split; [reflexivity|now rewrite app_nil_r].
  - destruct (step c st) as [[o st1]|] eqn:E1; [|discriminate].
    destruct (run cs st1) as [[os1 st2]|] eqn:E2; [|discriminate].
    intros [= <- <-]. destruct (IH _ _ _ E2) as (Hp & Hl).
    rewrite Hp, Hl. destruct c as [|x]; simpl in E1.
    + destruct (fuzz st) as [[y st0]|] eqn:E; [|discriminate].
      injection E1 as <- <-.
      destruct (fuzz_cursor _ _ _ E) as (_ & Hp0 & Hst & _).
      unfold population_list. now rewrite Hp0, Hst.
    + injection E1 as <- <-.
      destruct (add_seed_population x st) as (Epop & _).
      destruct (add_seed_frame x st) as (Eself & _).
      rewrite Eself, Epop, <- app_assoc. split; reflexivity.
Qed.

(** X12.  [reset] puts the cursor back to 0, whatever it was, and binds
    the population to the seed list; it does not restore the initial seeds.
    An engine that has handed out all its seeds, so that its cursor stands
    at their number, and is then given a candidate with [add_seed], has
    after [reset] the cursor 0 again, keeps the candidate in its lists, and
    hands out the original seeds and then the candidate. *)
Theorem reset_keeps_added_seeds
    (seeds : list str) (mn mx : option Z) (g : rng) (c : str) :
  (forall st : state,
     seed_index (self (reset_engine st)) = 0%nat /\
     population (self (reset_engine st)) = seed (self st) /\
     seed (self (reset_engine st)) = seed (self st) /\
     min_mutations (self (reset_engine st)) = min_mutations (self st) /\
     max_mutations (self (reset_engine st)) = max_mutations (self st) /\
     store (reset_engine st) = store st /\
     gen (reset_engine st) = gen st /\
     population_list (reset_engine st) = seed_list st) /\
  (exists st0 st',
    boot seeds mn mx g = Ok st0 /\
    seed_index (self (reset_engine (add_seed c st0))) = 0%nat /\
    population_list (reset_engine (add_seed c st0)) = seeds ++ [c] /\
    seed_list (reset_engine (add_seed c st0)) = seeds ++ [c] /\
    run (replicate (S (length seeds)) ProduceNext) (reset_engine (add_seed c st0))
    = Ok (map Some (seeds ++ [c]), st')) /\
  (exists st0 stn st',
    boot seeds mn mx g = Ok st0 /\
    run (replicate (length seeds) ProduceNext) st0 = Ok (map Some seeds, stn) /\
    seed_index (self (add_seed c stn)) = length seeds /\
    seed_index (self (reset_engine (add_seed c stn))) = 0%nat /\
    population_list (reset_engine (add_seed c stn)) = seeds ++ [c] /\
    seed_list (reset_engine (add_seed c stn)) = seeds ++ [c] /\
    run (replicate (S (length seeds)) ProduceNext) (reset_engine (add_seed c stn))
    = Ok (map Some (seeds ++ [c]), st')).
Proof.
  split; [intros st; repeat split|].
  unfold boot. rewrite init_ok.
  match goal with |- (exists st0 st', Ok ?s = _ /\ _) /\ _ => set (st0 := s) end.
  split.
  - exists st0.
    set (st1 := reset_engine (add_seed c st0)).
    assert (Hl : seed_list st1 = seeds ++ [c]).
    { unfold st1, seed_list, reset_engine, add_seed, st0. cbn.
      now rewrite fn_lookup_insert. }
    destruct (run_seeding (S (length seeds)) st1) as (st' & Hrun & _).
    { rewrite Hl, length_app. simpl. lia. }
    exists st'. split; [reflexivity|]. split; [reflexivity|].
    split; [exact Hl|]. split; [exact Hl|].
    transitivity (Ok (map Some (drop (seed_index (self st1)) (seed_list st1)), st'));
      [exact Hrun|].
    rewrite Hl. reflexivity.
  - exists st0.
    destruct (run_seeding (length seeds) st0 eq_refl)
      as (stn & Hrun & Hstore & _ & _ & Hseed & Hpop & Hidx).
    set (st1 := reset_engine (add_seed c stn)).
    assert (Hl : seed_list st1 = seeds ++ [c]).
    { unfold st1, seed_list, reset_engine, add_seed. cbv zeta. cbn [self store reset seed].
      rewrite Hstore, Hseed, Hpop. unfold st0. cbn.
      now rewrite fn_lookup_insert. }
    destruct (run_seeding (S (length seeds)) st1) as (st' & Hrun' & _).
    { rewrite Hl, length_app. simpl. lia. }
    exists stn, st'. split; [reflexivity|]. split; [exact Hrun|].
    split; [exact Hidx|]. split; [reflexivity|].
    split; [exact Hl|]. split; [exact Hl|].
    transitivity (Ok (map Some (drop (seed_index (self st1)) (seed_list st1)), st'));
      [exact Hrun'|].
    rewrite Hl. reflexivity.
Qed.


(** ** The further statements at concrete inputs *)

Section FurtherInstances.

#[local] Existing Instance Ascii.ops.

Lemma wf_abc : wf_str (py "abc").
Proof. unfold wf_str, wf_char, max_code_point. repeat constructor; simpl; lia. Defined.

Lemma abc_nonempty : py "abc" <> [].
Proof. discriminate. Defined.

(** Deleting from "abc". *)
Lemma delete_random_character_removes_one_witness :
  py "abc" <> [] /\
  exists pos g',
    (pos < length (py "abc"))%nat /\
    delete_random_character (py "abc") (rng_of [1]%nat)
    = Ok (take pos (py "abc") ++ drop (S pos) (py "abc"), g') /\
    S (length (take pos (py "abc") ++ drop (S pos) (py "abc"))) = length (py "abc").
Proof.
  split; [exact abc_nonempty|].
  exact (delete_random_character_removes_one (py "abc") (rng_of [1]%nat) abc_nonempty).
Defined.

(** Flipping a bit of "abc". *)
Lemma flip_random_character_flips_one_bit_witness :
  py "abc" <> [] /\
  wf_str (py "abc") /\
  exists pos k c c' g',
    (pos < length (py "abc"))%nat /\
    0 <= k <= 6 /\
    py "abc" !! pos = Some c /\
    ord c' = Z.lxor (ord c) (2 ^ k) /\
    c' <> c /\
    flip_random_character (py "abc") (rng_of [1; 5]%nat)
    = Ok (<[pos := c']> (py "abc"), g').
Proof.
  split; [exact abc_nonempty|]. split; [exact wf_abc|].
  destruct (flip_random_character_flips_one_bit (py "abc") (rng_of [1; 5]%nat)
              abc_nonempty wf_abc)
    as (pos & k & c & c' & g' & Hpos & Hk & Hc & Hord & Hdiff & E & _).
  exists pos, k, c, c', g'. repeat split; try assumption; lia.
Defined.

(** Flipping "abc" twice. *)
Lemma flip_random_character_twice_witness :
  wf_str (py "abc") /\
  exists s' g',
    flip_random_character (py "abc") (rng_of [1; 5]%nat) = Ok (s', g') /\
    flip_random_character s' (rng_of [1; 5]%nat) = Ok (py "abc", g').
Proof.
  split; [exact wf_abc|].
  exact (flip_random_character_twice (py "abc") (rng_of [1; 5]%nat) wf_abc).
Defined.

(** One mutation of "abc". *)
Lemma mutate_changes_a_little_witness :
  wf_str (py "abc") /\
  exists s' g',
    mutate (py "abc") (rng_of [2; 1; 5]%nat) = Ok (s', g') /\
    (length (py "abc") - 1 <= length s' <= length (py "abc") + 1)%nat /\
    (py "abc" <> [] -> s' <> py "abc").
Proof.
  split; [exact wf_abc|].
  destruct (mutate_changes_a_little (py "abc") (rng_of [2; 1; 5]%nat) wf_abc)
    as (s' & g' & E & _ & Hlen & _ & Hdiff).
  exists s', g'. split; [exact E|]. split; [exact Hlen|exact Hdiff].
Defined.

(** A candidate from the population ["SELECT 1"] with the default bounds. *)
Lemma create_candidate_stays_close_witness :
  let f := self (engine_at 1) in
  let h := store (engine_at 1) in
  h (population f) <> [] /\
  Forall wf_str (h (population f)) /\
  min_mutations f <= max_mutations f /\
  exists out g',
    create_candidate f h (gen (engine_at 1)) = Ok (out, g') /\
    (length (py "SELECT 1") - 10 <= length out <= length (py "SELECT 1") + 10)%nat.
Proof.
  cbv zeta.
  assert (Hne : store (engine_at 1) (population (self (engine_at 1))) <> [])
    by (simpl; discriminate).
  assert (Hwf : Forall wf_str (store (engine_at 1) (population (self (engine_at 1)))))
    by (simpl; constructor; [exact wf_select_1|constructor]).
  assert (Hle : min_mutations (self (engine_at 1)) <= max_mutations (self (engine_at 1)))
    by (simpl; lia).
  split; [exact Hne|]. split; [exact Hwf|]. split; [exact Hle|].
  destruct (create_candidate_stays_close
              (self (engine_at 1)) (store (engine_at 1)) (gen (engine_at 1))
              Hne Hwf Hle)
    as (i & c & g1 & trials & g2 & out & g'
        & _ & Hc & _ & _ & _ & _ & E & _ & _ & Hlen & _).
  exists out, g'. split; [exact E|].
  simpl in Hc. destruct i as [|i]; simpl in Hc; [|discriminate].
  injection Hc as <-. exact Hlen.
Defined.

(** A candidate with both bounds at 0. *)
Lemma create_candidate_without_trials_witness :
  let f := {| seed := 0; min_mutations := 0; max_mutations := 0;
              population := 0; seed_index := 1; inp := None |} in
  let h := heap_of [py "SELECT 1"] in
  h (population f) <> [] /\
  min_mutations f <= max_mutations f /\
  max_mutations f <= 0 /\
  exists i candidate g',
    h (population f) !! i = Some candidate /\
    create_candidate f h (rng_of [0; 0]%nat) = Ok (candidate, g').
Proof.
  cbv zeta.
  assert (Hne : heap_of [py "SELECT 1"] 0%nat <> []) by (simpl; discriminate).
  split; [exact Hne|]. split; [simpl; lia|]. split; [simpl; lia|].
  apply (create_candidate_without_trials
           {| seed := 0; min_mutations := 0; max_mutations := 0;
              population := 0; seed_index := 1; inp := None |}
           (heap_of [py "SELECT 1"]) (rng_of [0; 0]%nat) Hne); simpl; lia.
Defined.

(** A run of a validly configured engine. *)
Lemma valid_engine_never_raises_witness :
  let cs := [ProduceNext; AddSeed (py "abc"); ProduceNext; ProduceNext] in
  [py "SELECT 1"] <> [] /\
  Forall wf_str [py "SELECT 1"] /\
  default 2 None <= default 10 None /\
  Forall wf_call cs /\
  exists st0 os st',
    boot [py "SELECT 1"] None None (rng_of [0; 0; 1; 1; 3; 40]%nat) = Ok st0 /\
    run cs st0 = Ok (os, st') /\
    length os = length cs.
Proof.
  cbv zeta.
  assert (Hne : [py "SELECT 1"] <> []) by discriminate.
  assert (Hwf : Forall wf_str [py "SELECT 1"])
    by (constructor; [exact wf_select_1|constructor]).
  assert (Hle : default 2 None <= default 10 None) by (simpl; lia).
  assert (Hcs : Forall wf_call
                  [ProduceNext; AddSeed (py "abc"); ProduceNext; ProduceNext]).
  { constructor; [exact I|]. constructor; [exact wf_abc|].
    constructor; [exact I|]. constructor; [exact I|constructor]. }
  split; [exact Hne|]. split; [exact Hwf|]. split; [exact Hle|]. split; [exact Hcs|].
  exact (valid_engine_never_raises [py "SELECT 1"] None None
           (rng_of [0; 0; 1; 1; 3; 40]%nat) _ Hne Hwf Hle Hcs).
Defined.

(** The population after adding the same candidate twice. *)
Lemma run_appends_added_seeds_witness :
  let cs := [AddSeed (py "abc"); ProduceNext; AddSeed (py "abc")] in
  exists os st',
    run cs (engine_at 0) = Ok (os, st') /\
    population_list st' = [py "SELECT 1"; py "abc"; py "abc"].
Proof.
  cbv zeta.
  assert (H : exists os st',
             run [AddSeed (py "abc"); ProduceNext; AddSeed (py "abc")] (engine_at 0)
             = Ok (os, st')) by (eexists _, _; reflexivity).
  destruct H as (os & st' & E). exists os, st'. split; [exact E|].
  exact (proj2 (run_appends_added_seeds _ _ _ _ E)).
Defined.

End FurtherInstances.
